(** * The websocket manipulator of aporeto-inc/manipulate

    A shallow embedding of package [manipwebsocket]: the response-channel
    registry, the credential store and its refresh loop, the connection
    supervisor ([connect], [listen]), the request gateway ([send]), the stop
    closure returned by the constructor, and the subscription worker
    ([Subscribe]).

    Conventions.
    - Go's [int] and [time.Duration] are [Z]; durations count nanoseconds.
    - A Go map is a [gmap]; the registry maps request identifiers to channels,
      and a channel is the number handed out by [make] (a bump allocator in
      the [world]).
    - A nilable pointer, slice, func or [error] is an [option]; [None] is nil.
    - Methods of the manipulator run in a state-and-outcome monad [M]: a call
      returns, panics, or blocks on a mutex that is held.
    - The results of calls into the network, the clock and the identity
      provider are arguments of the functions (an oracle per call); what the
      code does to the outside is appended to the [events] of the world. *)

From Stdlib Require Import ZArith List.
From stdpp Require Import base tactics option gmap strings list.

Import ListNotations.
Local Open Scope string_scope.
Local Open Scope Z_scope.
Local Open Scope list_scope.

(** ** Outcomes and errors *)

Inductive outcome (A : Type) : Type :=
| Returned (a : A)
| Panicked (msg : string)
| Blocked.
Arguments Returned {A} a.
Arguments Panicked {A} msg.
Arguments Blocked {A}.

(** The values of Go's [error] interface that the package builds or passes
    on.  [ErrExternal] is an error made by a library outside the repository
    (the websocket package, the identity-provider client). *)
Inductive error : Type :=
| ErrCannotCommunicate (msg : string)
| ErrCannotUnmarshal (msg : string)
| ErrElemental (code : Z) (description : string)
| ErrExternal (msg : string).

(** [err.Error()] *)
Definition Error (e : error) : string :=
  match e with
  | ErrCannotCommunicate m => m
  | ErrCannotUnmarshal m => m
  | ErrElemental _ d => d
  | ErrExternal m => m
  end.

(** ** Frames *)

Record Request : Type := {
  RequestID : string;
  Namespace : string;
  Operation : string;
  ReqIdentity : string;
  ObjectID : string;
  Username : string;
  Password : string
}.

Record Response : Type := {
  RespRequest : Request;
  StatusCode : Z;
  Total : Z;
  RespErrors : list (Z * string)
}.

Record Event : Type := {
  EvIdentity : string;
  EvType : string
}.

(** [elemental.Identity] *)
Record Identity : Type := {
  Name : string;
  Category : string
}.

(** ** Sockets, channels, time *)

(** A [*websocket.Conn]: [request_nil] is what [IsClientConn] reports
    ([ws.request == nil]); [closed] records that [Close] was called. *)
Record Conn : Type := {
  request_nil : bool;
  closed : bool
}.

Definition IsClientConn (c : Conn) : bool := request_nil c.

(** [ws.Close()]: the connection is closed afterwards; closing a connection
    that is already closed changes nothing and reports an error, which every
    caller in the package drops. *)
Definition Close (c : Conn) : Conn * option error :=
  ({| request_nil := request_nil c; closed := true |},
   if closed c then Some (ErrExternal "use of closed network connection") else None).

(** The connection a successful [websocket.DialConfig] returns. *)
Definition dialed : Conn := {| request_nil := true; closed := false |}.

Abbreviation chan := nat (only parsing).

Definition Second : Z := 1000000000.

(** [http.StatusOK] *)
Definition StatusOK : Z := 200.

(** ** What the code does to the outside

    The trace lists the calls that leave the goroutine, in order; a dial is
    listed with its result. *)

(** [err == nil] *)
Definition succeeded (r : option error) : bool :=
  match r with
  | None => true
  | Some _ => false
  end.

(** The socket of the request gateway and the socket of a subscription. *)
Inductive socket : Type := ApiSocket | EventSocket.

Inductive event : Type :=
| EvLog (level msg : string)
| EvNewConfig (url : string)
| EvDial (k : socket) (url : string) (ok : bool)
| EvWsSend (rid : string)
| EvWsReceive (k : socket)
| EvWsClose (k : socket)
| EvChanSend (ch : chan) (r : Response)
| EvSelect (ch : chan) (timeout : Z)
| EvSleep (d : Z)
| EvIssue
| EvRegister (rid : string) (ch : chan)
| EvUnregister (rid : string)
| EvClear
| EvPublish
| EvHandler (e : option Event) (err : option error)
| EvRecovery.

(** ** The manipulator *)

Record websocketManipulator : Type := {
  responsesChanRegistry : gmap string chan;
  responsesChanRegistryLock : bool;
  renewLock : bool;
  namespace : string;
  password : string;
  receiveAll : bool;
  running : bool;
  runningLock : bool;
  tlsInsecureSkipVerify : bool;
  url : string;
  username : string;
  wsLock : bool;
  ws : option Conn
}.

(** The variables of one call of [Subscribe] that its closures share. *)
Record subscription : Type := {
  sub_ws : option Conn;
  stopped : bool;
  needsPublishDisconnectFunc : bool;
  needsReconnectionHandlerCall : bool
}.

(** The manipulator, the variables of a subscription, the channel allocator
    and the trace. *)
Record world : Type := {
  mgr : websocketManipulator;
  sub : subscription;
  nextChan : chan;
  events : list event
}.

Inductive mutex : Type := RegistryLock | RenewLock | RunningLock | WsLock.

Definition held (l : mutex) (m : websocketManipulator) : bool :=
  match l with
  | RegistryLock => responsesChanRegistryLock m
  | RenewLock => renewLock m
  | RunningLock => runningLock m
  | WsLock => wsLock m
  end.

Definition set_held (l : mutex) (b : bool) (m : websocketManipulator) : websocketManipulator :=
  {| responsesChanRegistry := responsesChanRegistry m;
     responsesChanRegistryLock := match l with RegistryLock => b | _ => responsesChanRegistryLock m end;
     renewLock := match l with RenewLock => b | _ => renewLock m end;
     namespace := namespace m;
     password := password m;
     receiveAll := receiveAll m;
     running := running m;
     runningLock := match l with RunningLock => b | _ => runningLock m end;
     tlsInsecureSkipVerify := tlsInsecureSkipVerify m;
     url := url m;
     username := username m;
     wsLock := match l with WsLock => b | _ => wsLock m end;
     ws := ws m |}.

Definition set_registry (r : gmap string chan) (m : websocketManipulator) : websocketManipulator :=
  {| responsesChanRegistry := r;
     responsesChanRegistryLock := responsesChanRegistryLock m;
     renewLock := renewLock m;
     namespace := namespace m;
     password := password m;
     receiveAll := receiveAll m;
     running := running m;
     runningLock := runningLock m;
     tlsInsecureSkipVerify := tlsInsecureSkipVerify m;
     url := url m;
     username := username m;
     wsLock := wsLock m;
     ws := ws m |}.

Definition set_password (p : string) (m : websocketManipulator) : websocketManipulator :=
  {| responsesChanRegistry := responsesChanRegistry m;
     responsesChanRegistryLock := responsesChanRegistryLock m;
     renewLock := renewLock m;
     namespace := namespace m;
     password := p;
     receiveAll := receiveAll m;
     running := running m;
     runningLock := runningLock m;
     tlsInsecureSkipVerify := tlsInsecureSkipVerify m;
     url := url m;
     username := username m;
     wsLock := wsLock m;
     ws := ws m |}.

Definition set_running (b : bool) (m : websocketManipulator) : websocketManipulator :=
  {| responsesChanRegistry := responsesChanRegistry m;
     responsesChanRegistryLock := responsesChanRegistryLock m;
     renewLock := renewLock m;
     namespace := namespace m;
     password := password m;
     receiveAll := receiveAll m;
     running := b;
     runningLock := runningLock m;
     tlsInsecureSkipVerify := tlsInsecureSkipVerify m;
     url := url m;
     username := username m;
     wsLock := wsLock m;
     ws := ws m |}.

Definition set_ws (c : option Conn) (m : websocketManipulator) : websocketManipulator :=
  {| responsesChanRegistry := responsesChanRegistry m;
     responsesChanRegistryLock := responsesChanRegistryLock m;
     renewLock := renewLock m;
     namespace := namespace m;
     password := password m;
     receiveAll := receiveAll m;
     running := running m;
     runningLock := runningLock m;
     tlsInsecureSkipVerify := tlsInsecureSkipVerify m;
     url := url m;
     username := username m;
     wsLock := wsLock m;
     ws := c |}.

Definition new_subscription : subscription :=
  {| sub_ws := None;
     stopped := false;
     needsPublishDisconnectFunc := true;
     needsReconnectionHandlerCall := false |}.

Definition set_sub_ws (c : option Conn) (s : subscription) : subscription :=
  {| sub_ws := c;
     stopped := stopped s;
     needsPublishDisconnectFunc := needsPublishDisconnectFunc s;
     needsReconnectionHandlerCall := needsReconnectionHandlerCall s |}.

Definition set_stopped (b : bool) (s : subscription) : subscription :=
  {| sub_ws := sub_ws s;
     stopped := b;
     needsPublishDisconnectFunc := needsPublishDisconnectFunc s;
     needsReconnectionHandlerCall := needsReconnectionHandlerCall s |}.

Definition set_needsPublishDisconnectFunc (b : bool) (s : subscription) : subscription :=
  {| sub_ws := sub_ws s;
     stopped := stopped s;
     needsPublishDisconnectFunc := b;
     needsReconnectionHandlerCall := needsReconnectionHandlerCall s |}.

Definition set_needsReconnectionHandlerCall (b : bool) (s : subscription) : subscription :=
  {| sub_ws := sub_ws s;
     stopped := stopped s;
     needsPublishDisconnectFunc := needsPublishDisconnectFunc s;
     needsReconnectionHandlerCall := b |}.

(** ** The monad of method bodies

    A body maps the world to an outcome and the world it leaves behind, also
    when it panics or blocks: the trace of such a run is kept. *)

Definition M (A : Type) : Type := world -> outcome A * world.

#[export] Instance M_ret : MRet M := fun A (a : A) (w : world) => (Returned a, w).

#[export] Instance M_bind : MBind M := fun A B (k : A -> M B) (c : M A) (w : world) =>
  match c w with
  | (Returned a, w') => k a w'
  | (Panicked msg, w') => (Panicked msg, w')
  | (Blocked, w') => (Blocked, w')
  end.

Definition get : M websocketManipulator := fun w => (Returned (mgr w), w).

Definition modify (f : websocketManipulator -> websocketManipulator) : M unit := fun w =>
  (Returned tt, {| mgr := f (mgr w); sub := sub w; nextChan := nextChan w; events := events w |}).

Definition get_sub : M subscription := fun w => (Returned (sub w), w).

Definition modify_sub (f : subscription -> subscription) : M unit := fun w =>
  (Returned tt, {| mgr := mgr w; sub := f (sub w); nextChan := nextChan w; events := events w |}).

Definition emit (e : event) : M unit := fun w =>
  (Returned tt, {| mgr := mgr w; sub := sub w; nextChan := nextChan w; events := events w ++ [e] |}).

Definition panic {A} (msg : string) : M A := fun w => (Panicked msg, w).

Definition block {A} : M A := fun w => (Blocked, w).

(** [make(chan *elemental.Response)] *)
Definition make_chan : M chan := fun w =>
  (Returned (nextChan w), {| mgr := mgr w; sub := sub w; nextChan := S (nextChan w); events := events w |}).

(** [sync.Mutex]: locking a held mutex blocks, unlocking a free one is a
    fatal error. *)
Definition Lock (l : mutex) : M unit :=
  m ← get;
  if held l m then block else modify (set_held l true).

Definition Unlock (l : mutex) : M unit :=
  m ← get;
  if held l m then modify (set_held l false)
  else panic "sync: unlock of unlocked mutex".

(** [defer d] at the head of [body]: [d] runs when [body] returns, and when
    it panics, before the panic goes on. *)
Definition defer {A} (d : M unit) (body : M A) : M A := fun w =>
  match body w with
  | (Returned a, w') => (d ;; mret a) w'
  | (Panicked msg, w') => (d ;; panic msg) w'
  | (Blocked, w') => (Blocked, w')
  end.

(** ** Response router *)

Definition registerResponseChannel (rid : string) : M chan :=
  ch ← make_chan;
  Lock RegistryLock ;;
  modify (fun m => set_registry (<[rid := ch]> (responsesChanRegistry m)) m) ;;
  emit (EvRegister rid ch) ;;
  Unlock RegistryLock ;;
  mret ch.

Definition unregisterResponseChannel (rid : string) : M unit :=
  Lock RegistryLock ;;
  modify (fun m => set_registry (delete rid (responsesChanRegistry m)) m) ;;
  emit (EvUnregister rid) ;;
  Unlock RegistryLock.

Definition unregisterAllResponseChannels : M unit :=
  Lock RegistryLock ;;
  modify (set_registry ∅) ;;
  emit EvClear ;;
  Unlock RegistryLock.

(** The zero value of a channel is nil: [None]. *)
Definition responseChannelForID (rid : string) : M (option chan) :=
  Lock RegistryLock ;;
  defer (Unlock RegistryLock)
    (m ← get; mret (responsesChanRegistry m !! rid)).

(** ** Credential store *)

Definition setPassword (p : string) : M unit :=
  Lock RenewLock ;;
  modify (set_password p) ;;
  Unlock RenewLock.

Definition currentPassword : M string :=
  Lock RenewLock ;;
  defer (Unlock RenewLock)
    (m ← get; mret (password m)).

(** ** Token refresher *)

(** What [select] picks in one round of [renewMidgardToken]: the tick, with
    what [mclient.IssueFromCertificate] then returns, or the stop signal. *)
Inductive renew_in : Type :=
| Tick (token : string) (err : option error)
| StopSignal.

(** Whether a loop left through [return] or is still going when the oracle
    ends. *)
Inductive loop_status : Type := Exited | Pending.

(** The body of the tick case. *)
Definition renewMidgardToken_tick (token : string) (err : option error) : M unit :=
  emit (EvLog "info" "Refreshing Midgard token...") ;;
  emit EvIssue ;;
  (match err with
   | Some _ => emit (EvLog "error" "Unable to renew token.")
   | None => mret tt
   end) ;;
  Lock RenewLock ;;
  modify (set_password token) ;;
  Unlock RenewLock.

Fixpoint renewMidgardToken (ins : list renew_in) : M loop_status :=
  match ins with
  | [] => mret Pending
  | Tick token err :: ins' => renewMidgardToken_tick token err ;; renewMidgardToken ins'
  | StopSignal :: _ => mret Exited
  end.

(** ** Addresses *)

Fixpoint strip_prefix (p s : string) : option string :=
  match p with
  | EmptyString => Some s
  | String a p' =>
      match s with
      | EmptyString => None
      | String b s' => if Ascii.eqb a b then strip_prefix p' s' else None
      end
  end.

(** [strings.Replace(s, old, new, 1)] *)
Fixpoint replace_first (old new s : string) : string :=
  match strip_prefix old s with
  | Some rest => new +:+ rest
  | None =>
      match s with
      | EmptyString => EmptyString
      | String c s' => String c (replace_first old new s')
      end
  end.

(** The address both sockets dial; [endpoint] is ["/wsapi?token="] or
    ["/events?token="]. *)
Definition ws_url (base endpoint token ns : string) (all : bool) : string :=
  let url := replace_first "http://" "ws://" base in
  let url := replace_first "https://" "wss://" url in
  let url := url +:+ endpoint +:+ token +:+ "&namespace=" +:+ ns in
  if all then url +:+ "&mode=all" else url.

(** ** Socket operations on the manipulator's connection

    A method called through a nil [*websocket.Conn] dereferences nil. *)

Definition nil_deref : string := "invalid memory address or nil pointer dereference".

Definition wsIsClientConn : M bool :=
  m ← get;
  match ws m with
  | None => panic nil_deref
  | Some c => mret (IsClientConn c)
  end.

Definition wsClose : M unit :=
  m ← get;
  match ws m with
  | None => panic nil_deref
  | Some c => emit (EvWsClose ApiSocket) ;; modify (set_ws (Some (Close c).1))
  end.

Definition wsReceive : M unit :=
  m ← get;
  match ws m with
  | None => panic nil_deref
  | Some _ => emit (EvWsReceive ApiSocket)
  end.

(** ** The stop closure the constructors return *)

Definition stop : M unit :=
  Lock WsLock ;;
  m ← get;
  client ← (if bool_decide (ws m ≠ None) then wsIsClientConn else mret false);
  (if client : bool then
     Lock RunningLock ;;
     modify (set_running false) ;;
     Unlock RunningLock ;;
     wsClose
   else mret tt) ;;
  Unlock WsLock.

Section Manipulator.

(** [decodeErrors] is defined in a file of the package that is not among the
    sources; the code here only passes its result on. *)
Variable decodeErrors : Response -> error.

(** ** Connection supervisor *)

(** What the network answers during one [connect]. *)
Record connect_in : Type := {
  config_result : option error;
  dial_result : option error;
  handshake : Response + error
}.

Definition connect (e : connect_in) : M (option error) :=
  unregisterAllResponseChannels ;;
  m ← get;
  token ← currentPassword;
  let url := ws_url (url m) "/wsapi?token=" token (namespace m) (receiveAll m) in
  Lock WsLock ;;
  emit (EvNewConfig url) ;;
  match config_result e with
  | Some err => Unlock WsLock ;; mret (Some err)
  | None =>
      Unlock WsLock ;;
      Lock WsLock ;;
      emit (EvDial ApiSocket url (succeeded (dial_result e))) ;;
      modify (set_ws (if succeeded (dial_result e) then Some dialed else None)) ;;
      Unlock WsLock ;;
      match dial_result e with
      | Some err => mret (Some (ErrCannotCommunicate (Error err)))
      | None =>
          wsReceive ;;
          match handshake e with
          | inr err => mret (Some (ErrCannotCommunicate (Error err)))
          | inl response =>
              if bool_decide (StatusCode response ≠ StatusOK)
              then mret (Some (decodeErrors response))
              else mret None
          end
      end
  end.

(** What [websocket.JSON.Receive] yields in [listen]. *)
Inductive received : Type :=
| RecvOk (r : Response)
| RecvErr (e : error).

(** One round of [listen]: the frame read, and, should the read fail, what
    the network answers to each reconnection attempt. *)
Record listen_in : Type := {
  frame : received;
  attempts : list connect_in
}.

(** The inner loop of [listen]; [false] when the oracle ends before a
    [connect] succeeds. *)
Fixpoint reconnect (es : list connect_in) : M bool :=
  match es with
  | [] => mret false
  | e :: es' =>
      err ← connect e;
      match err with
      | Some _ =>
          emit (EvLog "warning" "Websocket not available. Retrying in 5s...") ;;
          emit (EvSleep (5 * Second)) ;;
          reconnect es'
      | None =>
          emit (EvLog "info" "Websocket connection restored.") ;;
          mret true
      end
  end.

Fixpoint listen (ins : list listen_in) : M loop_status :=
  match ins with
  | [] => mret Pending
  | i :: ins' =>
      wsReceive ;;
      match frame i with
      | RecvOk response =>
          ch ← responseChannelForID (RequestID (RespRequest response));
          (match ch with
           | Some c => emit (EvChanSend c response)
           | None => mret tt
           end) ;;
          listen ins'
      | RecvErr err =>
          Lock RunningLock ;;
          m ← get;
          if negb (running m) then
            Unlock RunningLock ;;
            mret Exited
          else
            Unlock RunningLock ;;
            emit (EvLog "warning" "Websocket connection died. Reconnecting...") ;;
            restored ← reconnect (attempts i);
            if restored : bool then listen ins' else mret Pending
      end
  end.

(** ** Request gateway *)

(** When, counted from the start of the wait, a response reaches the
    channel of the caller. *)
Inductive delivery : Type :=
| NoDelivery
| DeliveredAt (t : Z) (r : Response).

(** What happens around one [send]: the result of the write, what other
    goroutines do to the registry while the caller waits, the delivery, and
    the case [select] takes when response and timer are ready together. *)
Record send_in : Type := {
  write_result : option error;
  meanwhile : gmap string chan -> gmap string chan;
  arrival : delivery;
  tie_timeout : bool
}.

(** [select] over the channel and [time.After(timeout)]: the response when
    it is there first, [None] when the timer is. *)
Definition select_response (timeout : Z) (d : delivery) (tie : bool) : option Response :=
  match d with
  | NoDelivery => None
  | DeliveredAt t r =>
      if t <? timeout then Some r
      else if (t =? timeout) && negb tie then Some r
      else None
  end.

Definition send (request : Request) (e : send_in) : M (option Response * option error) :=
  m ← get;
  if bool_decide (ws m = None) then
    mret (None, Some (ErrCannotCommunicate "Websocket not initialized"))
  else
    emit (EvWsSend (RequestID request)) ;;
    match write_result e with
    | Some err => mret (None, Some (ErrCannotCommunicate (Error err)))
    | None =>
        ch ← registerResponseChannel (RequestID request);
        defer (unregisterResponseChannel (RequestID request))
          (emit (EvSelect ch (30 * Second)) ;;
           modify (fun m => set_registry (meanwhile e (responsesChanRegistry m)) m) ;;
           match select_response (30 * Second) (arrival e) (tie_timeout e) with
           | Some response =>
               if (StatusCode response <? 200) || (300 <? StatusCode response)
               then mret (None, Some (decodeErrors response))
               else mret (Some response, None)
           | None => mret (None, Some (ErrCannotCommunicate "Request timeout"))
           end)
    end.

(** ** Construction *)

Definition new_manipulator (username password url namespace : string) (skipTLSVerify : bool)
  : websocketManipulator :=
  {| responsesChanRegistry := ∅;
     responsesChanRegistryLock := false;
     renewLock := false;
     namespace := namespace;
     password := password;
     receiveAll := false;
     running := true;
     runningLock := false;
     tlsInsecureSkipVerify := skipTLSVerify;
     url := url;
     username := username;
     wsLock := false;
     ws := None |}.

(** The manipulator, to which [stop] then applies, or the error; [listen]
    is started on the manipulator returned. *)
Definition NewWebSocketManipulatorWithRootCAAndNamespace
    (username password url namespace : string) (skipTLSVerify : bool) (e : connect_in)
  : outcome (option world * option error) :=
  let w := {| mgr := new_manipulator username password url namespace skipTLSVerify;
              sub := new_subscription; nextChan := O; events := [] |} in
  match connect e w with
  | (Returned (Some err), _) => Returned (None, Some err)
  | (Returned None, w') => Returned (Some w', None)
  | (Panicked msg, _) => Panicked msg
  | (Blocked, _) => Blocked
  end.

End Manipulator.

(** ** Subscription worker *)

Section Subscription.

(** The arguments of [Subscribe].  A nil slice is [None]; of the two
    callbacks only whether they are nil matters here, a call is an event. *)
Variable identities : option (list Identity).
Variable allNamespaces : bool.
Variable handler : bool.
Variable recoHandler : bool.

Definition relatedIdentities : gmap string bool :=
  match identities with
  | None => ∅
  | Some ids => foldl (fun acc i => <[Name i := true]> acc) ∅ ids
  end.

(** [handler(e, err)]; calling a nil func value panics. *)
Definition call_handler (e : option Event) (err : option error) : M unit :=
  if handler then emit (EvHandler e err) else panic nil_deref.

(** The closure handed to the caller. *)
Definition disconnectFunc : M unit :=
  modify_sub (set_stopped true) ;;
  s ← get_sub;
  match sub_ws s with
  | Some c =>
      if IsClientConn c
      then emit (EvWsClose EventSocket) ;; modify_sub (set_sub_ws (Some (Close c).1))
      else mret tt
  | None => mret tt
  end.

(** One read of the inner loop: whether the caller ran the closure while
    the read was in flight, and what the read returned. *)
Record receive_in : Type := {
  unsubscribed : bool;
  message : Event + error
}.

(** One round of the outer loop: the result of [websocket.NewConfig],
    whether the caller ran the closure before the check of [stopped], the
    result of the dial, and the reads on the socket dialed. *)
Record dial_in : Type := {
  sub_config : option error;
  unsubscribed_before : bool;
  sub_dial : option error;
  reads : list receive_in
}.

(** The inner loop; [true] when it is left through [break], [false] when the
    oracle ends with the loop still reading. *)
Fixpoint receive_events (fs : list receive_in) : M bool :=
  match fs with
  | [] => mret false
  | f :: fs' =>
      emit (EvWsReceive EventSocket) ;;
      (if unsubscribed f then disconnectFunc else mret tt) ;;
      s ← get_sub;
      if stopped s then mret true
      else
        match message f with
        | inr err =>
            call_handler None (Some err) ;;
            modify_sub (set_needsReconnectionHandlerCall true) ;;
            mret true
        | inl event =>
            (if bool_decide (is_Some (relatedIdentities !! EvIdentity event))
                || bool_decide (identities = None)
             then call_handler (Some event) None
             else mret tt) ;;
            receive_events fs'
        end
  end.

(** The goroutine [Subscribe] starts. *)
Fixpoint subscribe_worker (ds : list dial_in) : M loop_status :=
  match ds with
  | [] => mret Pending
  | d :: ds' =>
      m ← get;
      token ← currentPassword;
      let url := ws_url (url m) "/events?token=" token (namespace m) allNamespaces in
      emit (EvNewConfig url) ;;
      match sub_config d with
      | Some err => panic (Error err)
      | None =>
          (if unsubscribed_before d then disconnectFunc else mret tt) ;;
          s ← get_sub;
          if stopped s then mret Exited
          else
            emit (EvDial EventSocket url (succeeded (sub_dial d))) ;;
            modify_sub (set_sub_ws (if succeeded (sub_dial d) then Some dialed else None)) ;;
            match sub_dial d with
            | Some _ =>
                emit (EvLog "warning" "Could not connect to websocket. Retrying in 5s") ;;
                emit (EvSleep (5 * Second)) ;;
                subscribe_worker ds'
            | None =>
                s ← get_sub;
                (if needsPublishDisconnectFunc s then emit EvPublish else mret tt) ;;
                modify_sub (set_needsPublishDisconnectFunc false) ;;
                s ← get_sub;
                (if needsReconnectionHandlerCall s && recoHandler
                 then modify_sub (set_needsReconnectionHandlerCall false) ;; emit EvRecovery
                 else mret tt) ;;
                left ← receive_events (reads d);
                if left : bool then subscribe_worker ds' else mret Pending
            end
      end
  end.

(** [Subscribe] starts the worker on fresh variables and returns what comes
    out of the channel: it returns once the worker has published the closure
    (whatever the worker does after that), and does not return when the
    worker never publishes. *)
Definition Subscribe (ds : list dial_in) : M (option (M unit) * option error) := fun w =>
  let w0 := {| mgr := mgr w; sub := new_subscription; nextChan := nextChan w; events := events w |} in
  match subscribe_worker ds w0 with
  | (o, w') =>
      if needsPublishDisconnectFunc (sub w') then
        (match o with Panicked msg => Panicked msg | _ => Blocked end, w')
      else (Returned (Some disconnectFunc, None), w')
  end.

End Subscription.

(** ** Vocabulary of the statements *)

(** The events a run added to the trace. *)
Definition since (w w' : world) : list event :=
  drop (length (events w)) (events w').

(** No mutex of the manipulator is held: the state between two calls. *)
Definition idle (m : websocketManipulator) : bool :=
  negb (responsesChanRegistryLock m || renewLock m || runningLock m || wsLock m).

(** No response reaches the caller in the first [timeout] nanoseconds of
    the wait. *)
Definition no_delivery_within (timeout : Z) (d : delivery) : Prop :=
  match d with
  | NoDelivery => True
  | DeliveredAt t _ => timeout < t
  end.

(** Every channel of the registry was handed out by the allocator. *)
Definition allocated (w : world) : Prop :=
  ∀ rid ch, responsesChanRegistry (mgr w) !! rid = Some ch → (ch < nextChan w)%nat.

(** Events that leave a cleared registry cleared: everything but a
    registration and a dial of the request socket. *)
Definition quiet (ev : event) : bool :=
  match ev with
  | EvRegister _ _ => false
  | EvDial ApiSocket _ _ => false
  | _ => true
  end.

(** Reads a trace and checks the dials of the request socket: at each one
    [cleared] must hold, that is, the registry was cleared earlier and since
    then nothing was registered and nothing dialed. *)
Fixpoint cleared_at_dials (cleared : bool) (tr : list event) : bool :=
  match tr with
  | [] => true
  | EvClear :: tr' => cleared_at_dials true tr'
  | ev :: tr' =>
      if quiet ev then cleared_at_dials cleared tr'
      else match ev with
           | EvDial _ _ _ => cleared && cleared_at_dials false tr'
           | _ => cleared_at_dials false tr'
           end
  end.

(** The recovery handler and the reconnections of a subscription, read off
    the trace.  [Calm]: no read has failed since the start or since the last
    call of the recovery handler.  [Broken]: the failure of a read was
    reported to the handler and the socket has not been dialed with success
    since.  [Due]: the socket has just been dialed with success after such a
    failure. *)
Inductive reco_state : Type := Calm | Broken | Due.

(** In [Due] the next event must be the call of the recovery handler; in
    the other two states a call of the recovery handler is refused. *)
Definition reco_step (st : reco_state) (ev : event) : option reco_state :=
  match st, ev with
  | Due, EvRecovery => Some Calm
  | Due, _ => None
  | _, EvRecovery => None
  | _, EvHandler None (Some _) => Some Broken
  | Broken, EvDial EventSocket _ true => Some Due
  | _, _ => Some st
  end.

(** Runs a checker over a trace. *)
Fixpoint check {S : Type} (step : S → event → option S) (st : S) (tr : list event) : option S :=
  match tr with
  | [] => Some st
  | ev :: tr' =>
      match step st ev with
      | Some st' => check step st' tr'
      | None => None
      end
  end.

Definition reco_run : reco_state → list event → option reco_state := check reco_step.

(** The trace calls the recovery handler once per reconnection and at no
    other time. *)
Definition recovers_once_per_reconnect (tr : list event) : Prop :=
  ∃ st, reco_run Calm tr = Some st ∧ st ≠ Due.

(** What the subscription passes on to the handler: everything when the
    slice of identities is nil, and otherwise the events whose identity is
    the name of one of the identities. *)
Definition delivers (identities : option (list Identity)) (e : Event) : bool :=
  match identities with
  | None => true
  | Some ids => bool_decide (EvIdentity e ∈ Name <$> ids)
  end.

(** A read that returns the event [e], the caller not unsubscribing. *)
Definition read_of (e : Event) : receive_in :=
  {| unsubscribed := false; message := inl e |}.

(** A read that fails, the caller not unsubscribing. *)
Definition read_failed (err : error) : receive_in :=
  {| unsubscribed := false; message := inr err |}.

(** What [send] hands back for a response taken from the channel. *)
Definition verdict (decodeErrors : Response -> error) (response : Response)
  : option Response * option error :=
  if (StatusCode response <? 200) || (300 <? StatusCode response)
  then (None, Some (decodeErrors response))
  else (Some response, None).

(** The address of the subscription socket. *)
Definition events_url (allNamespaces : bool) (w : world) : string :=
  ws_url (url (mgr w)) "/events?token=" (password (mgr w)) (namespace (mgr w)) allNamespaces.

(** What a round of the worker adds to the trace when the dial fails. *)
Definition retry (url : string) : list event :=
  [EvNewConfig url; EvDial EventSocket url false;
   EvLog "warning" "Could not connect to websocket. Retrying in 5s";
   EvSleep (5 * Second)].

(** A round whose dial fails, the caller not unsubscribing. *)
Definition quiet_failure (d : dial_in) : Prop :=
  sub_config d = None ∧ unsubscribed_before d = false ∧ succeeded (sub_dial d) = false.

(** The rest of a round of the worker once the socket is dialed and the
    closure published. *)
Definition resume (identities : option (list Identity)) (allNamespaces handler recoHandler : bool)
    (d : dial_in) (ds : list dial_in) : M loop_status :=
  left ← receive_events identities handler (reads d);
  if left : bool
  then subscribe_worker identities allNamespaces handler recoHandler ds
  else mret Pending.

(** ** Vocabulary of the proofs *)

(** Whatever the world and the outcome, the body adds a trace with [Q]. *)
Definition adds (Q : list event → Prop) {A} (c : M A) : Prop :=
  ∀ w, ∃ tr, events (c w).2 = events w ++ tr ∧ Q tr.

(** The dials of the trace are let through from either state of the
    checker. *)
Definition always_cleared (tr : list event) : Prop :=
  ∀ c, cleared_at_dials c tr = true.

(** [triple step unfinished aborted P f c Q g], for a checker [step] of
    traces: from a world with [P], where the checker is in state [f], the
    body [c] adds a trace that the checker accepts; when [c] returns [a] the
    world has [Q a] and the checker is in state [g], and when [c] panics or
    blocks the checker is not left in an [unfinished] state and the world
    has [aborted]. *)
Definition triple {S : Type} (step : S → event → option S) (unfinished : S → Prop)
    (aborted : world → Prop) {A} (P : world → Prop) (f : world → S) (c : M A)
    (Q : A → world → Prop) (g : world → S) : Prop :=
  ∀ w, P w →
    ∃ tr st, events (c w).2 = events w ++ tr
             ∧ check step (f w) tr = Some st
             ∧ match (c w).1 with
               | Returned a => Q a (c w).2 ∧ st = g (c w).2
               | _ => ¬ unfinished st ∧ aborted (c w).2
               end.

(** Triples of the checker of the recovery handler. *)
Abbreviation reco_triple := (triple reco_step (fun st => st = Due) (fun _ => True)).

(** The state of the checker between two rounds of the worker, and right
    after a dial that succeeded. *)
Definition state_of (w : world) : reco_state :=
  if needsReconnectionHandlerCall (sub w) then Broken else Calm.

Definition after_dial (w : world) : reco_state :=
  if needsReconnectionHandlerCall (sub w) then Due else Calm.

(** A failure can only be pending once the closure has been published;
    with [b], the closure has been published. *)
Definition published (b : bool) (w : world) : Prop :=
  (needsReconnectionHandlerCall (sub w) = true → needsPublishDisconnectFunc (sub w) = false)
  ∧ (b = true → needsPublishDisconnectFunc (sub w) = false).

(** With [b], the closure has been published. *)
Definition handed_out (b : bool) (w : world) : Prop :=
  b = true → needsPublishDisconnectFunc (sub w) = false.

(** Triples of the checker that accepts every trace; a run that panics or
    blocks keeps [handed_out b]. *)
Abbreviation plain_triple b :=
  (triple (fun (_ : unit) (_ : event) => Some tt) (fun _ => False) (handed_out b)).

Abbreviation anywhere := (fun _ : world => tt).

(** ** Sample inputs *)

Module Sample.

Definition manipulator : websocketManipulator :=
  set_ws (Some dialed) (new_manipulator "Bearer" "T0" "https://api.example.com" "/ns" true).

Definition w0 : world :=
  {| mgr := manipulator; sub := new_subscription; nextChan := 0%nat; events := [] |}.

(** The registry already holds the channel 0 under ["r1"]. *)
Definition w1 : world :=
  {| mgr := set_registry {["r1" := 0%nat]} manipulator;
     sub := new_subscription; nextChan := 1%nat; events := [] |}.

Definition decode (r : Response) : error :=
  match RespErrors r with
  | [] => ErrElemental (StatusCode r) "unknown"
  | (code, description) :: _ => ErrElemental code description
  end.

Definition request : Request :=
  {| RequestID := "r1"; Namespace := "/ns"; Operation := "retrieve";
     ReqIdentity := "thing"; ObjectID := "abc"; Username := "Bearer"; Password := "T0" |}.

Definition response (status : Z) : Response :=
  {| RespRequest := request; StatusCode := status; Total := 0; RespErrors := [] |}.

Definition answered (t : Z) (status : Z) : send_in :=
  {| write_result := None; meanwhile := id;
     arrival := DeliveredAt t (response status); tie_timeout := false |}.

Definition unanswered : send_in :=
  {| write_result := None; meanwhile := id; arrival := NoDelivery; tie_timeout := false |}.

Definition accepted : connect_in :=
  {| config_result := None; dial_result := None; handshake := inl (response 200) |}.

Definition refused : connect_in :=
  {| config_result := None; dial_result := Some (ErrExternal "connection refused");
     handshake := inr (ErrExternal "EOF") |}.

(** The manipulator a constructor returns when the server accepts the
    connection. *)
Definition constructed : world :=
  match NewWebSocketManipulatorWithRootCAAndNamespace decode "Bearer" "T0"
          "https://api.example.com" "/ns" true accepted with
  | Returned (Some w, _) => w
  | _ => w0
  end.

Definition thing_created : Event := {| EvIdentity := "thing"; EvType := "create" |}.

Definition dial_refused : dial_in :=
  {| sub_config := None; unsubscribed_before := false;
     sub_dial := Some (ErrExternal "connection refused"); reads := [] |}.

Definition dial_then (fs : list receive_in) : dial_in :=
  {| sub_config := None; unsubscribed_before := false; sub_dial := None; reads := fs |}.

Definition lost : receive_in := read_failed (ErrExternal "EOF").

End Sample.

(** ** Further vocabulary *)

(** Whether [old] occurs in [s]. *)
Fixpoint occurs (old s : string) : bool :=
  match strip_prefix old s with
  | Some _ => true
  | None =>
      match s with
      | EmptyString => false
      | String _ s' => occurs old s'
      end
  end.

(** The network lets [connect] through: the address is accepted, the dial
    succeeds and the handshake frame is read with status 200. *)
Definition connects (e : connect_in) : bool :=
  succeeded (config_result e) && succeeded (dial_result e)
  && match handshake e with
     | inl response => bool_decide (StatusCode response = StatusOK)
     | inr _ => false
     end.

(** The address [connect] dials. *)
Definition api_url (m : websocketManipulator) : string :=
  ws_url (url m) "/wsapi?token=" (password m) (namespace m) (receiveAll m).

(** What [connect] adds to the trace. *)
Definition connect_trace (e : connect_in) (url : string) : list event :=
  EvClear :: EvNewConfig url
  :: (if succeeded (config_result e)
      then EvDial ApiSocket url (succeeded (dial_result e))
           :: (if succeeded (dial_result e) then [EvWsReceive ApiSocket] else [])
      else []).

(** The manipulator [connect] leaves behind. *)
Definition connect_mgr (e : connect_in) (m : websocketManipulator) : websocketManipulator :=
  if succeeded (config_result e)
  then set_ws (if succeeded (dial_result e) then Some dialed else None) (set_registry ∅ m)
  else set_registry ∅ m.

(** The tokens of the ticks that come before the first stop signal. *)
Fixpoint tokens_before_stop (ins : list renew_in) : list string :=
  match ins with
  | Tick token _ :: ins' => token :: tokens_before_stop ins'
  | _ => []
  end.

(** Whether a stop signal is among the rounds. *)
Fixpoint stop_signalled (ins : list renew_in) : bool :=
  match ins with
  | [] => false
  | StopSignal :: _ => true
  | Tick _ _ :: ins' => stop_signalled ins'
  end.

Definition is_sleep (ev : event) : bool :=
  match ev with
  | EvSleep _ => true
  | _ => false
  end.

Definition is_dial (ev : event) : bool :=
  match ev with
  | EvDial _ _ _ => true
  | _ => false
  end.

Definition is_handler_call (ev : event) : bool :=
  match ev with
  | EvHandler _ _ => true
  | _ => false
  end.

Definition is_issue (ev : event) : bool :=
  match ev with
  | EvIssue => true
  | _ => false
  end.

(** The recovery handler is not called in the trace. *)
Definition no_recovery (tr : list event) : Prop := EvRecovery ∉ tr.

(** ** The operations of the request gateway *)

(** The errors the operations make besides those of [error]. *)
Inductive failure : Type :=
| Passed (e : error)
| ErrCannotMarshal (msg : string)
| ErrNotImplemented (msg : string).

(** [manipulate.Manipulable]: what the gateway asks of an object. *)
Record Manipulable : Type := {
  ObjIdentity : Identity;
  Identifier : string
}.

(** The operations of [elemental]. *)
Definition OperationRetrieveMany : string := "retrieve-many".
Definition OperationRetrieve : string := "retrieve".
Definition OperationCreate : string := "create".
Definition OperationUpdate : string := "update".
Definition OperationDelete : string := "delete".
Definition OperationInfo : string := "info".

(** What lies outside the gateway in one exchange: the identifier
    [elemental.NewRequest] gives the request, the result of [req.Encode],
    what happens around [send], and the result of [resp.Decode]. *)
Record exchange_in : Type := {
  request_id : string;
  encoded : option error;
  wire : send_in;
  decoded : option error
}.

(** The head of every operation: a new request stamped with the namespace,
    the operation, the identity, the user name and the current password. *)
Definition new_request (operation : string) (identity : Identity) (rid : string) : M Request :=
  m ← get;
  password ← currentPassword;
  mret {| RequestID := rid;
          Namespace := namespace m;
          Operation := operation;
          ReqIdentity := Name identity;
          ObjectID := "";
          Username := username m;
          Password := password |}.

Definition set_ObjectID (id : string) (req : Request) : Request :=
  {| RequestID := RequestID req;
     Namespace := Namespace req;
     Operation := Operation req;
     ReqIdentity := ReqIdentity req;
     ObjectID := id;
     Username := Username req;
     Password := Password req |}.

Section Operations.

Variable decodeErrors : Response -> error.

(** [manipulate.Context], [manipulate.NewContext] and
    [populateRequestFromContext] are defined outside the sources. *)
Variable Context : Type.
Variable NewContext : Context.
Variable populateRequestFromContext : Request -> Context -> Request + error.

Definition RetrieveMany (context : option Context) (identity : Identity) (x : exchange_in)
  : M (option failure) :=
  let context := default NewContext context in
  req ← new_request OperationRetrieveMany identity (request_id x);
  match populateRequestFromContext req context with
  | inr err => mret (Some (Passed err))
  | inl req =>
      r ← send decodeErrors req (wire x);
      match r with
      | (_, Some err) => mret (Some (Passed err))
      | (None, None) => panic nil_deref
      | (Some resp, None) =>
          match decoded x with
          | Some err => mret (Some (Passed (ErrCannotUnmarshal (Error err))))
          | None => mret None
          end
      end
  end.

(** The loop of [Retrieve], [Update] and [Delete] ([withID]) and of
    [Create] (without): one exchange per object, in order, until one
    fails. *)
Fixpoint exchange_objects (operation : string) (withID : bool) (context : Context)
    (objects : list (Manipulable * exchange_in)) : M (option failure) :=
  match objects with
  | [] => mret None
  | (object, x) :: objects' =>
      req ← new_request operation (ObjIdentity object) (request_id x);
      let req := if withID then set_ObjectID (Identifier object) req else req in
      match populateRequestFromContext req context with
      | inr err => mret (Some (Passed err))
      | inl req =>
          match encoded x with
          | Some err => mret (Some (ErrCannotMarshal (Error err)))
          | None =>
              r ← send decodeErrors req (wire x);
              match r with
              | (_, Some err) => mret (Some (Passed err))
              | (None, None) => panic nil_deref
              | (Some resp, None) =>
                  match decoded x with
                  | Some err => mret (Some (Passed (ErrCannotUnmarshal (Error err))))
                  | None => exchange_objects operation withID context objects'
                  end
              end
          end
      end
  end.

Definition Retrieve (context : option Context) (objects : list (Manipulable * exchange_in))
  : M (option failure) :=
  exchange_objects OperationRetrieve true (default NewContext context) objects.

Definition Create (context : option Context) (objects : list (Manipulable * exchange_in))
  : M (option failure) :=
  exchange_objects OperationCreate false (default NewContext context) objects.

Definition Update (context : option Context) (objects : list (Manipulable * exchange_in))
  : M (option failure) :=
  exchange_objects OperationUpdate true (default NewContext context) objects.

Definition Delete (context : option Context) (objects : list (Manipulable * exchange_in))
  : M (option failure) :=
  exchange_objects OperationDelete true (default NewContext context) objects.

Definition DeleteMany (context : option Context) (identity : Identity) : M (option failure) :=
  mret (Some (ErrNotImplemented "DeleteMany not implemented in manipwebsocket")).

Definition Count (context : option Context) (identity : Identity) (x : exchange_in)
  : M (Z * option failure) :=
  let context := default NewContext context in
  req ← new_request OperationInfo identity (request_id x);
  match populateRequestFromContext req context with
  | inr err => mret (0, Some (Passed err))
  | inl req =>
      r ← send decodeErrors req (wire x);
      match r with
      | (_, Some err) => mret (0, Some (Passed err))
      | (None, None) => panic nil_deref
      | (Some resp, None) => mret (Total resp, None)
      end
  end.

Definition Assign (context : option Context) : M (option failure) :=
  mret (Some (ErrNotImplemented "Assign not implemented in websocket manipulator")).

Definition Increment (context : option Context) (identity : Identity) (counter : string)
    (inc : Z) : M (option failure) :=
  mret (Some (ErrNotImplemented "Increment not implemented in websocket manipulator")).

(** ** The other constructors *)

(** The identity provider issues the first token; with an error nothing is
    built.  The refresher is started on the manipulator returned, and its
    stop closure runs [stop] and then signals the refresher. *)
Definition NewWebSocketManipulatorWithMidgardCertAuthentication
    (url namespace : string) (skipInsecure : bool)
    (issued : string * option error) (e : connect_in)
  : outcome (option world * option error) :=
  match issued.2 with
  | Some err => Returned (None, Some err)
  | None =>
      NewWebSocketManipulatorWithRootCAAndNamespace decodeErrors "Bearer" issued.1 url namespace
        skipInsecure e
  end.

Definition NewWebSocketManipulatorWithRootCA
    (username password url : string) (skipTLSVerify : bool) (e : connect_in)
  : outcome (option world * option error) :=
  NewWebSocketManipulatorWithRootCAAndNamespace decodeErrors username password url ""
    skipTLSVerify e.

(** [pool] is the error of [x509.SystemCertPool], which is logged; the
    result comes with what was logged. *)
Definition NewWebSocketManipulatorWithNamespace
    (username password url namespace : string) (pool : option error) (e : connect_in)
  : list event * outcome (option world * option error) :=
  (match pool with
   | Some _ => [EvLog "error" "Unable to load system root cert pool. tls fallback to unsecure."]
   | None => []
   end,
   NewWebSocketManipulatorWithRootCAAndNamespace decodeErrors username password url namespace
     true e).

Definition NewWebSocketManipulator
    (username password url : string) (pool : option error) (e : connect_in)
  : list event * outcome (option world * option error) :=
  NewWebSocketManipulatorWithNamespace username password url "" pool e.

End Operations.

(** ** The stop closure of the Midgard constructor

    [func() { stop(); stopCh <- true }].  [stopCh] is made by the constructor
    and is unbuffered; its only receiver is the [case <-stop] of
    [renewMidgardToken], which returns when it takes the signal.  Beside the
    manipulator the state therefore says whether the refresher has
    returned. *)
Record midgard_state : Type := {
  core : world;
  refresher_returned : bool
}.

(** The state the constructor leaves: the refresher has just been started. *)
Definition midgard_started (w : world) : midgard_state :=
  {| core := w; refresher_returned := false |}.

(** [stopCh <- true].  The send completes when the refresher takes the
    signal at its [select], after which the refresher returns.  [taken] says
    whether the refresher gets there (it does not while the identity
    provider keeps it waiting); once it has returned nothing receives and the
    send blocks for good. *)
Definition stopCh_send (taken : bool) (s : midgard_state) : outcome unit * midgard_state :=
  if refresher_returned s then (Blocked, s)
  else if taken then (Returned tt, {| core := core s; refresher_returned := true |})
  else (Blocked, s).

Definition midgard_stop (taken : bool) (s : midgard_state) : outcome unit * midgard_state :=
  let (o, w') := stop (core s) in
  let s' := {| core := w'; refresher_returned := refresher_returned s |} in
  match o with
  | Returned _ => stopCh_send taken s'
  | Panicked msg => (Panicked msg, s')
  | Blocked => (Blocked, s')
  end.

(** An exchange in which nothing fails: the body is encoded, the frame is
    written, a response with a status from 200 to 300 arrives in time and is
    decoded. *)
Definition clean (x : exchange_in) : Prop :=
  encoded x = None
  ∧ write_result (wire x) = None
  ∧ (∃ response,
       select_response (30 * Second) (arrival (wire x)) (tie_timeout (wire x)) = Some response
       ∧ 200 ≤ StatusCode response ≤ 300)
  ∧ decoded x = None.

(** The context is one that [populateRequestFromContext] takes for every
    request. *)
Definition accepting {Context : Type}
    (populateRequestFromContext : Request -> Context -> Request + error)
    (context : Context) : Prop :=
  ∀ req, ∃ req', populateRequestFromContext req context = inl req'.

(** The manipulator between calls, with a socket. *)
Definition ready (w : world) : Prop :=
  idle (mgr w) = true ∧ is_Some (ws (mgr w)).

Definition is_send (ev : event) : bool :=
  match ev with
  | EvWsSend _ => true
  | _ => false
  end.

(** ** Sample exchanges *)

Module OperationSample.

(** A context with nothing to add to the request. *)
Definition populate (req : Request) (context : unit) : Request + error := inl req.

Definition thing (id : string) : Manipulable :=
  {| ObjIdentity := {| Name := "thing"; Category := "things" |}; Identifier := id |}.

(** The server answers with status 200 after 10 ns. *)
Definition exchanged (rid : string) : exchange_in :=
  {| request_id := rid; encoded := None; wire := Sample.answered 10 200; decoded := None |}.

(** The server does not answer. *)
Definition undelivered (rid : string) : exchange_in :=
  {| request_id := rid; encoded := None; wire := Sample.unanswered; decoded := None |}.

(** The server answers a count with the total [n]. *)
Definition total (n : Z) : Response :=
  {| RespRequest := Sample.request; StatusCode := 200; Total := n; RespErrors := [] |}.

Definition counted (rid : string) (n : Z) : exchange_in :=
  {| request_id := rid;
     encoded := None;
     wire := {| write_result := None; meanwhile := id;
                arrival := DeliveredAt 10 (total n); tie_timeout := false |};
     decoded := None |}.

End OperationSample.

(** ** A manipulator that lost its connection *)

Module StopSample.

(** The constructed manipulator after [listen] has seen its read fail and
    the redial be refused: it has no socket and is still running. *)
Definition disconnected : world :=
  (listen Sample.decode
     [{| frame := RecvErr (ErrExternal "EOF"); attempts := [Sample.refused] |}]
     Sample.constructed).2.

End StopSample.

(** * Properties *)

Ltac open_world w :=
  let reg := fresh "reg" in
  let wsc := fresh "wsc" in
  destruct w as [[reg [] [] ? ? ? ? [] ? ? ? [] wsc] ? ? ?]; cbn in *; try discriminate.

(** Symbolic execution of a method body on a world whose mutexes are
    known. *)
Ltac run_step :=
  first
    [ progress unfold mbind, M_bind, mret, M_ret, defer, get, get_sub, modify, modify_sub,
        emit, panic, block, make_chan, Lock, Unlock,
        registerResponseChannel, unregisterResponseChannel,
        unregisterAllResponseChannels, responseChannelForID,
        setPassword, currentPassword, wsIsClientConn, wsClose, wsReceive,
        set_registry, set_held, set_password, set_running, set_ws, held,
        set_sub_ws, set_stopped, set_needsPublishDisconnectFunc,
        set_needsReconnectionHandlerCall
    | progress cbn -[select_response Z.mul Z.ltb Z.eqb insert delete lookup ws_url]
    | rewrite <- app_assoc ].

Ltac run := repeat run_step.

Lemma since_app w w' tr : events w' = events w ++ tr → since w w' = tr.
Proof. unfold since. intros ->. apply drop_app_length. Qed.

(** ** Token refresher *)

(** Claim C1, which the code does not meet.  A tick stores whatever token the
    identity provider returned, also when it returned an error: after a
    failed refresh the password is the token that came with the error, not
    the password from before the tick. *)
Theorem renewMidgardToken_tick_stores_token (token : string) (err : option error) (w : world) :
  renewLock (mgr w) = false →
  (renewMidgardToken_tick token err w).1 = Returned tt
  ∧ password (mgr (renewMidgardToken_tick token err w).2) = token.
Proof.
  intros Hfree. destruct w as [[] ? ? ?]; cbn in *; subst.
  destruct err; split; reflexivity.
Qed.

Lemma renewMidgardToken_tick_stores_token_witness :
  password (mgr Sample.w0) = "T0"
  ∧ password (mgr (renewMidgardToken_tick "" (Some (ErrExternal "midgard is down")) Sample.w0).2) = "".
Proof.
  split; [reflexivity |].
  apply (renewMidgardToken_tick_stores_token "" (Some (ErrExternal "midgard is down")) Sample.w0).
  reflexivity.
Defined.

(** ** Response router *)

Lemma registerResponseChannel_run (rid : string) (w : world) :
  responsesChanRegistryLock (mgr w) = false →
  registerResponseChannel rid w =
    (Returned (nextChan w),
     {| mgr := set_registry (<[rid := nextChan w]> (responsesChanRegistry (mgr w))) (mgr w);
        sub := sub w;
        nextChan := S (nextChan w);
        events := events w ++ [EvRegister rid (nextChan w)] |}).
Proof. intros Hfree. destruct w as [[] ? ? ?]; cbn in *; subst. reflexivity. Qed.

(** Claim C4, amended to what the code does.  [registerResponseChannel] on an identifier that
    is already registered returns: it makes a new channel, stores it in the
    place of the one registered before, and leaves the other entries
    alone. *)
Theorem registerResponseChannel_replaces (rid : string) (old : chan) (w : world) :
  responsesChanRegistryLock (mgr w) = false →
  allocated w →
  responsesChanRegistry (mgr w) !! rid = Some old →
  let r := registerResponseChannel rid w in
  r.1 = Returned (nextChan w)
  ∧ responsesChanRegistry (mgr r.2) !! rid = Some (nextChan w)
  ∧ nextChan w ≠ old
  ∧ (∀ rid', rid' ≠ rid →
       responsesChanRegistry (mgr r.2) !! rid' = responsesChanRegistry (mgr w) !! rid').
Proof.
  intros Hfree Halloc Hold r. subst r.
  rewrite registerResponseChannel_run by assumption.
  destruct w as [m s n ev]; destruct m; cbn in *.
  split; [reflexivity |]. split; [apply lookup_insert_eq |].
  split.
  - apply Halloc in Hold. cbn in Hold. lia.
  - intros rid' Hne. apply lookup_insert_ne. congruence.
Qed.

Lemma registerResponseChannel_replaces_witness :
  let r := registerResponseChannel "r1" Sample.w1 in
  r.1 = Returned 1%nat
  ∧ responsesChanRegistry (mgr r.2) !! "r1" = Some 1%nat
  ∧ 1%nat ≠ 0%nat
  ∧ (∀ rid', rid' ≠ "r1" →
       responsesChanRegistry (mgr r.2) !! rid' = responsesChanRegistry (mgr Sample.w1) !! rid').
Proof.
  apply (registerResponseChannel_replaces "r1" 0%nat Sample.w1).
  - reflexivity.
  - intros rid ch. cbn. intros H.
    apply lookup_singleton_Some in H as [_ <-]. cbn. lia.
  - reflexivity.
Defined.

(** Claim C4 as stated fails: with ["r1"] registered, registering ["r1"] again
    does not panic; it returns the new channel 1, and the registry holds 1
    where it held 0. *)
Lemma registerResponseChannel_duplicate_returns :
  responsesChanRegistry (mgr Sample.w1) !! "r1" = Some 0%nat
  ∧ (∀ msg, (registerResponseChannel "r1" Sample.w1).1 ≠ Panicked msg)
  ∧ (registerResponseChannel "r1" Sample.w1).1 = Returned 1%nat
  ∧ responsesChanRegistry (mgr (registerResponseChannel "r1" Sample.w1).2) !! "r1" = Some 1%nat.
Proof.
  split; [reflexivity |]. split; [| split; reflexivity].
  intros msg. cbn. discriminate.
Qed.

(** ** Stop closure *)

(** The stop closure between calls (no mutex held): it returns, a second
    call returns as well and leaves the manipulator as the first call left
    it; when the socket was a client connection at the first call, it is
    closed and [running] is false after the first call and after the
    second. *)
Lemma stop_twice (w : world) :
  idle (mgr w) = true →
  let w1 := (stop w).2 in
  let w2 := (stop w1).2 in
  (stop w).1 = Returned tt
  ∧ (stop w1).1 = Returned tt
  ∧ mgr w2 = mgr w1
  ∧ (∀ c, ws (mgr w) = Some c → IsClientConn c = true →
       running (mgr w1) = false ∧ running (mgr w2) = false
       ∧ ws (mgr w1) = Some (Close c).1 ∧ ws (mgr w2) = Some (Close c).1).
Proof.
  intros Hidle. open_world w.
  match goal with
  | wsc : option Conn |- _ =>
      destruct wsc as [[[] cl] |]; cbn; repeat split; intros; simplify_eq; reflexivity
  end.
Qed.

(** The manipulator a constructor returns holds no mutex, is running, and
    its socket is the client connection just dialed. *)
Lemma constructed_is_connected (decodeErrors : Response -> error)
    (username password url namespace : string) (skipTLSVerify : bool) (e : connect_in)
    (w : world) :
  NewWebSocketManipulatorWithRootCAAndNamespace decodeErrors username password url namespace
    skipTLSVerify e = Returned (Some w, None) →
  idle (mgr w) = true ∧ running (mgr w) = true ∧ ws (mgr w) = Some dialed.
Proof.
  unfold NewWebSocketManipulatorWithRootCAAndNamespace, connect, new_manipulator.
  destruct e as [cfg dial hs].
  destruct cfg as [err |]; run; [intros [=] |].
  destruct dial as [err |]; run; [intros [=] |].
  destruct hs as [response | err]; run; [| intros [=]].
  destruct (bool_decide _); run; intros [=]. subst w. repeat split.
Qed.

(** The stop closure where it has nothing to close: without a socket, or
    with a socket that is not a client connection, it returns and changes
    nothing. *)
Lemma stop_nothing_to_close (w : world) :
  idle (mgr w) = true →
  (∀ c, ws (mgr w) = Some c → IsClientConn c = false) →
  stop w = (Returned tt, w).
Proof.
  intros Hidle Hclient. open_world w.
  match goal with
  | wsc : option Conn |- _ => destruct wsc as [[[] cl] |]
  end.
  - specialize (Hclient _ eq_refl). discriminate.
  - cbn. rewrite ?app_nil_r. reflexivity.
  - cbn. rewrite ?app_nil_r. reflexivity.
Qed.




(** ** Request gateway *)

Section Gateway.

Variable decodeErrors : Response -> error.

(** A [send] on a connected manipulator whose write succeeds. *)
Lemma send_written (request : Request) (e : send_in) (w : world) (c : Conn) :
  idle (mgr w) = true →
  ws (mgr w) = Some c →
  write_result e = None →
  send decodeErrors request e w =
    (Returned
       match select_response (30 * Second) (arrival e) (tie_timeout e) with
       | Some response => verdict decodeErrors response
       | None => (None, Some (ErrCannotCommunicate "Request timeout"))
       end,
     {| mgr := set_registry
                 (delete (RequestID request)
                    (meanwhile e (<[RequestID request := nextChan w]> (responsesChanRegistry (mgr w)))))
                 (mgr w);
        sub := sub w;
        nextChan := S (nextChan w);
        events := events w ++ [EvWsSend (RequestID request);
                               EvRegister (RequestID request) (nextChan w);
                               EvSelect (nextChan w) (30 * Second);
                               EvUnregister (RequestID request)] |}).
Proof.
  intros Hidle Hws Hwrite. open_world w. subst.
  destruct e as [wr mw arr tie]; cbn in *; subst.
  unfold send, verdict. run.
  destruct (select_response _ _ _) as [response |]; run; [| reflexivity].
  destruct (_ || _); run; reflexivity.
Qed.

(** Claim C2, which the code does not meet at 300.  A response with status 300 that
    reaches the waiting caller is returned as a success: the test in [send]
    is [StatusCode > 300]. *)
Theorem send_returns_status_300_as_success
    (request : Request) (e : send_in) (w : world) (c : Conn) (response : Response) :
  idle (mgr w) = true →
  ws (mgr w) = Some c →
  write_result e = None →
  select_response (30 * Second) (arrival e) (tie_timeout e) = Some response →
  StatusCode response = 300 →
  (send decodeErrors request e w).1 = Returned (Some response, None).
Proof.
  intros Hidle Hws Hwrite Hsel Hstatus.
  rewrite (send_written request e w c) by assumption.
  cbn [fst]. rewrite Hsel. unfold verdict. rewrite Hstatus. reflexivity.
Qed.

(** Claim C3, which the code does not meet.  [send] writes the frame first and
    registers the channel after the write has succeeded.  While the frame is
    on its way the registry is the one from before the call: when it holds
    nothing under the identifier of the request, a response to the request
    that [listen] reads at that moment finds no channel and is dropped. *)
Theorem send_writes_before_registering
    (request : Request) (e : send_in) (w : world) (c : Conn) (response : Response) :
  idle (mgr w) = true →
  ws (mgr w) = Some c →
  write_result e = None →
  RequestID (RespRequest response) = RequestID request →
  responsesChanRegistry (mgr w) !! RequestID request = None →
  since w (send decodeErrors request e w).2 =
    [EvWsSend (RequestID request);
     EvRegister (RequestID request) (nextChan w);
     EvSelect (nextChan w) (30 * Second);
     EvUnregister (RequestID request)]
  ∧ since w (listen decodeErrors [{| frame := RecvOk response; attempts := [] |}] w).2 =
    [EvWsReceive ApiSocket].
Proof.
  intros Hidle Hws Hwrite Hrid Hfresh. split.
  - rewrite (send_written request e w c) by assumption.
    apply since_app. reflexivity.
  - apply since_app. open_world w. subst.
    unfold listen. run. rewrite Hrid, Hfresh. run. reflexivity.
Qed.

(** Claim C7.  When no response reaches the caller within 30 seconds, [send]
    returns the error [CannotCommunicate] with the text [Request timeout],
    and the registry it leaves holds nothing under the identifier of the
    request, whatever other goroutines did to the registry during the
    wait. *)
Theorem send_timeout (request : Request) (e : send_in) (w : world) (c : Conn) :
  idle (mgr w) = true →
  ws (mgr w) = Some c →
  write_result e = None →
  no_delivery_within (30 * Second) (arrival e) →
  (send decodeErrors request e w).1 =
    Returned (None, Some (ErrCannotCommunicate "Request timeout"))
  ∧ responsesChanRegistry (mgr (send decodeErrors request e w).2) !! RequestID request = None.
Proof.
  intros Hidle Hws Hwrite Hlate.
  rewrite (send_written request e w c) by assumption.
  cbn [fst snd mgr]. split.
  - assert (select_response (30 * Second) (arrival e) (tie_timeout e) = None) as ->;
      [| reflexivity].
    unfold select_response, no_delivery_within in *.
    destruct (arrival e) as [| t r]; [reflexivity |].
    destruct (Z.ltb_spec t (30 * Second)); [lia |].
    destruct (Z.eqb_spec t (30 * Second)); [lia | reflexivity].
  - destruct (mgr w); cbn. apply lookup_delete_eq.
Qed.

End Gateway.

Lemma send_returns_status_300_as_success_witness :
  (send Sample.decode Sample.request (Sample.answered Second 300) Sample.w0).1 =
    Returned (Some (Sample.response 300), None).
Proof.
  apply (send_returns_status_300_as_success Sample.decode Sample.request
           (Sample.answered Second 300) Sample.w0 dialed (Sample.response 300));
    reflexivity.
Defined.

Lemma send_writes_before_registering_witness :
  since Sample.w0 (send Sample.decode Sample.request (Sample.answered Second 200) Sample.w0).2 =
    [EvWsSend "r1"; EvRegister "r1" 0%nat; EvSelect 0%nat (30 * Second); EvUnregister "r1"]
  ∧ since Sample.w0
      (listen Sample.decode [{| frame := RecvOk (Sample.response 200); attempts := [] |}] Sample.w0).2 =
    [EvWsReceive ApiSocket].
Proof.
  apply (send_writes_before_registering Sample.decode Sample.request
           (Sample.answered Second 200) Sample.w0 dialed (Sample.response 200));
    reflexivity.
Defined.

Lemma send_timeout_witness :
  (send Sample.decode Sample.request Sample.unanswered Sample.w0).1 =
    Returned (None, Some (ErrCannotCommunicate "Request timeout"))
  ∧ responsesChanRegistry
      (mgr (send Sample.decode Sample.request Sample.unanswered Sample.w0).2) !! "r1" = None.
Proof.
  apply (send_timeout Sample.decode Sample.request Sample.unanswered Sample.w0 dialed);
    [reflexivity | reflexivity | reflexivity | exact I].
Defined.

(** ** Subscription worker: the filter *)

Lemma relatedIdentities_fold (ids : list Identity) (acc : gmap string bool) (x : string) :
  is_Some (foldl (fun acc i => <[Name i := true]> acc) acc ids !! x)
  ↔ is_Some (acc !! x) ∨ x ∈ Name <$> ids.
Proof.
  revert acc. induction ids as [| i ids IH]; intros acc; cbn.
  - rewrite elem_of_nil. tauto.
  - rewrite IH, elem_of_cons.
    destruct (decide (Name i = x)) as [<- | Hne].
    + rewrite lookup_insert_eq. split; [| eauto].
      intros _. right. left. reflexivity.
    + rewrite lookup_insert_ne by assumption. split; [tauto |].
      intros [? | [? | ?]]; [tauto | congruence | tauto].
Qed.

Lemma relatedIdentities_delivers (identities : option (list Identity)) (e : Event) :
  bool_decide (is_Some (relatedIdentities identities !! EvIdentity e))
    || bool_decide (identities = None)
  = delivers identities e.
Proof.
  destruct identities as [ids |]; cbn.
  - rewrite orb_false_r. apply bool_decide_ext.
    rewrite relatedIdentities_fold, lookup_empty, is_Some_alt. tauto.
  - apply orb_true_r.
Qed.

(** Claim C5, amended to what the code does.  On a subscription that is not stopped and has
    a handler, the handler is called with [(event, nil)] right after the read
    of an event exactly when the slice of identities is nil or the identity
    of the event is the name of one of them; the events are handled in the
    order they are read. *)
Theorem receive_events_filters (identities : option (list Identity)) (evs : list Event) (w : world) :
  stopped (sub w) = false →
  since w (receive_events identities true (read_of <$> evs) w).2 =
    flat_map
      (fun e => EvWsReceive EventSocket
                :: if delivers identities e then [EvHandler (Some e) None] else [])
      evs.
Proof.
  intros Hlive. apply since_app. revert w Hlive.
  induction evs as [| e evs IH]; intros w Hlive.
  - cbn. rewrite app_nil_r. reflexivity.
  - cbn [fmap list_fmap flat_map receive_events read_of unsubscribed message].
    unfold call_handler. run. rewrite Hlive.
    rewrite relatedIdentities_delivers.
    destruct (delivers identities e); run.
    + rewrite IH by exact Hlive. run. reflexivity.
    + rewrite IH by exact Hlive. run. reflexivity.
Qed.

Lemma receive_events_filters_witness :
  since Sample.w0
    (receive_events (Some [{| Name := "thing"; Category := "things" |}]) true
       (read_of <$> [Sample.thing_created; {| EvIdentity := "other"; EvType := "update" |}])
       Sample.w0).2 =
  [EvWsReceive EventSocket; EvHandler (Some Sample.thing_created) None; EvWsReceive EventSocket].
Proof.
  apply (receive_events_filters (Some [{| Name := "thing"; Category := "things" |}])
           [Sample.thing_created; {| EvIdentity := "other"; EvType := "update" |}] Sample.w0).
  reflexivity.
Defined.

(** Claim C5 as stated fails: with a slice of identities that is empty and not
    nil, an event is read and the handler is not called. *)
Lemma empty_filter_delivers_nothing :
  length ([] : list Identity) = 0%nat
  ∧ since Sample.w0
      (receive_events (Some []) true [read_of Sample.thing_created] Sample.w0).2 =
    [EvWsReceive EventSocket]
  ∧ EvHandler (Some Sample.thing_created) None
    ∉ since Sample.w0
        (receive_events (Some []) true [read_of Sample.thing_created] Sample.w0).2.
Proof.
  split; [reflexivity |].
  assert (since Sample.w0
            (receive_events (Some []) true [read_of Sample.thing_created] Sample.w0).2 =
          [EvWsReceive EventSocket]) as Htrace by reflexivity.
  split; [exact Htrace |].
  rewrite Htrace. intros Hin. apply list_elem_of_singleton in Hin. discriminate.
Qed.

(** ** Traces of composed bodies *)

Section TraceLogic.

(** A property of traces that holds of the empty trace and of the
    concatenation of two traces that have it. *)
Variable Q : list event → Prop.
Hypothesis Q_nil : Q [].
Hypothesis Q_app : ∀ t1 t2, Q t1 → Q t2 → Q (t1 ++ t2).

Lemma adds_bind {A B} (c : M A) (k : A → M B) :
  adds Q c → (∀ a, adds Q (k a)) → adds Q (c ≫= k).
Proof.
  intros Hc Hk w. destruct (Hc w) as (t1 & E1 & Q1).
  unfold mbind, M_bind. destruct (c w) as [[a | msg |] w']; cbn in *.
  - destruct (Hk a w') as (t2 & E2 & Q2).
    exists (t1 ++ t2). rewrite E2, E1, app_assoc. auto.
  - eauto.
  - eauto.
Qed.

Lemma adds_silent {A} (c : M A) : (∀ w, events (c w).2 = events w) → adds Q c.
Proof. intros H w. exists []. rewrite H, app_nil_r. auto. Qed.

Lemma adds_ret {A} (a : A) : adds Q (mret a).
Proof. apply adds_silent. reflexivity. Qed.

Lemma adds_emit (ev : event) : Q [ev] → adds Q (emit ev).
Proof. intros H w. exists [ev]. auto. Qed.

Lemma adds_get : adds Q get.
Proof. apply adds_silent. reflexivity. Qed.

Lemma adds_get_sub : adds Q get_sub.
Proof. apply adds_silent. reflexivity. Qed.

Lemma adds_modify f : adds Q (modify f).
Proof. apply adds_silent. reflexivity. Qed.

Lemma adds_modify_sub f : adds Q (modify_sub f).
Proof. apply adds_silent. reflexivity. Qed.

Lemma adds_panic {A} msg : adds Q (panic msg : M A).
Proof. apply adds_silent. reflexivity. Qed.

Lemma adds_Lock l : adds Q (Lock l).
Proof.
  apply adds_silent. intros w. unfold Lock, mbind, M_bind, get; cbn.
  destruct (held l (mgr w)); reflexivity.
Qed.

Lemma adds_Unlock l : adds Q (Unlock l).
Proof.
  apply adds_silent. intros w. unfold Unlock, mbind, M_bind, get; cbn.
  destruct (held l (mgr w)); reflexivity.
Qed.

Lemma adds_defer {A} (d : M unit) (c : M A) : adds Q d → adds Q c → adds Q (defer d c).
Proof.
  intros Hd Hc w. destruct (Hc w) as (t1 & E1 & Q1).
  unfold defer. destruct (c w) as [[a | msg |] w']; cbn in *.
  - destruct (adds_bind d (fun _ => mret a) Hd (fun _ => adds_ret a) w') as (t2 & E2 & Q2).
    exists (t1 ++ t2). rewrite E2, E1, app_assoc. auto.
  - destruct (adds_bind (B := A) d (fun _ => panic msg) Hd (fun _ => adds_panic msg) w')
      as (t2 & E2 & Q2).
    exists (t1 ++ t2). rewrite E2, E1, app_assoc. auto.
  - eauto.
Qed.

Lemma adds_currentPassword : adds Q currentPassword.
Proof.
  unfold currentPassword.
  apply adds_bind; [apply adds_Lock | intros _].
  apply adds_defer; [apply adds_Unlock |].
  apply adds_bind; [apply adds_get | intros m; apply adds_ret].
Qed.

Lemma adds_wsReceive : Q [EvWsReceive ApiSocket] → adds Q wsReceive.
Proof.
  intros H. unfold wsReceive. apply adds_bind; [apply adds_get | intros m].
  destruct (ws m); [apply adds_emit; exact H | apply adds_panic].
Qed.

Lemma adds_responseChannelForID rid : adds Q (responseChannelForID rid).
Proof.
  unfold responseChannelForID.
  apply adds_bind; [apply adds_Lock | intros _].
  apply adds_defer; [apply adds_Unlock |].
  apply adds_bind; [apply adds_get | intros m; apply adds_ret].
Qed.

End TraceLogic.

(** ** Connection supervisor *)

Lemma cleared_at_dials_app (t1 t2 : list event) (c : bool) :
  cleared_at_dials c t1 = true → always_cleared t2 → cleared_at_dials c (t1 ++ t2) = true.
Proof.
  intros H1 H2. revert c H1.
  induction t1 as [| ev t1 IH]; intros c H1; cbn in *.
  - apply H2.
  - destruct ev; cbn in *; try (apply IH; exact H1).
    destruct k; cbn in *.
    + apply andb_true_iff in H1 as [-> H1]. cbn. apply IH, H1.
    + apply IH, H1.
Qed.

Lemma always_cleared_nil : always_cleared [].
Proof. intros c. reflexivity. Qed.

Lemma always_cleared_app (t1 t2 : list event) :
  always_cleared t1 → always_cleared t2 → always_cleared (t1 ++ t2).
Proof. intros H1 H2 c. apply cleared_at_dials_app; [apply H1 | exact H2]. Qed.

(** A dial that [cleared_at_dials] lets through comes after a clearing of
    the registry, with nothing but quiet events in between. *)
Lemma cleared_at_dials_split (pre post : list event) (url : string) (ok c : bool) :
  cleared_at_dials c (pre ++ EvDial ApiSocket url ok :: post) = true →
  (c = true ∧ Forall (fun ev => quiet ev = true) pre)
  ∨ ∃ a b, pre = a ++ EvClear :: b ∧ Forall (fun ev => quiet ev = true) b.
Proof.
  revert c. induction pre as [| ev pre IH]; intros c H.
  - cbn in H. apply andb_true_iff in H as [-> _]. left. split; [reflexivity | constructor].
  - assert (quiet ev = true →
            cleared_at_dials c (pre ++ EvDial ApiSocket url ok :: post) = true →
            (c = true ∧ Forall (fun ev => quiet ev = true) (ev :: pre))
            ∨ ∃ a b, ev :: pre = a ++ EvClear :: b ∧ Forall (fun ev => quiet ev = true) b)
      as Hquiet.
    { intros Hq H'. destruct (IH c H') as [[-> Hpre] | (a & b & -> & Hb)].
      - left. split; [reflexivity | constructor; assumption].
      - right. exists (ev :: a), b. split; [reflexivity | exact Hb]. }
    assert (cleared_at_dials false (pre ++ EvDial ApiSocket url ok :: post) = true →
            (c = true ∧ Forall (fun ev => quiet ev = true) (ev :: pre))
            ∨ ∃ a b, ev :: pre = a ++ EvClear :: b ∧ Forall (fun ev => quiet ev = true) b)
      as Hloud.
    { intros H'. destruct (IH false H') as [[? _] | (a & b & -> & Hb)]; [discriminate |].
      right. exists (ev :: a), b. split; [reflexivity | exact Hb]. }
    destruct ev; cbn in H; try (apply Hquiet; [reflexivity | exact H]).
    + destruct k; cbn in H.
      * apply andb_true_iff in H as [_ H]. apply Hloud, H.
      * apply Hquiet; [reflexivity | exact H].
    + apply Hloud, H.
    + destruct (IH true H) as [[_ Hpre] | (a & b & -> & Hb)].
      * right. exists [], pre. split; [reflexivity | exact Hpre].
      * right. exists (EvClear :: a), b. split; [reflexivity | exact Hb].
Qed.

Lemma always_cleared_quiet (ev : event) : quiet ev = true → always_cleared [ev].
Proof. intros Hq c. destruct ev; try reflexivity; destruct k; try reflexivity; discriminate. Qed.

Section Supervisor.

Variable decodeErrors : Response -> error.

(** [connect] begins by clearing the registry: unless it blocks on the
    mutex of the registry before doing anything, its trace starts with the
    clearing, the dial (if it gets that far) comes later, and the registry
    it leaves is empty. *)
Lemma connect_clears_first (e : connect_in) (w : world) :
  (responsesChanRegistryLock (mgr w) = true ∧ (connect decodeErrors e w).2 = w)
  ∨ ∃ tr, events (connect decodeErrors e w).2 = events w ++ EvClear :: tr
          ∧ cleared_at_dials true tr = true
          ∧ responsesChanRegistry (mgr (connect decodeErrors e w).2) = ∅.
Proof.
  destruct e as [cfg dial hs].
  destruct w as [[reg [] [] ? ? ? ? [] ? ? ? [] wsc] ? ? ?];
    try (left; split; reflexivity); right;
    unfold connect; run;
    try (eexists; split; [reflexivity | split; reflexivity]);
    destruct cfg; run;
    try (eexists; split; [reflexivity | split; reflexivity]);
    destruct dial; run;
    try (eexists; split; [reflexivity | split; reflexivity]);
    destruct hs as [response | err]; run;
    try (eexists; split; [reflexivity | split; reflexivity]);
    destruct (bool_decide _); run;
    eexists; (split; [reflexivity | split; reflexivity]).
Qed.

Ltac cleared :=
  first [ exact always_cleared_nil
        | exact always_cleared_app
        | apply always_cleared_quiet; reflexivity ].

Lemma adds_connect (e : connect_in) : adds always_cleared (connect decodeErrors e).
Proof.
  intros w. destruct (connect_clears_first e w) as [[_ ->] | (tr & E & Htr & _)].
  - exists []. rewrite app_nil_r. split; [reflexivity | apply always_cleared_nil].
  - exists (EvClear :: tr). split; [exact E |]. intros c. exact Htr.
Qed.


Lemma adds_reconnect (es : list connect_in) : adds always_cleared (reconnect decodeErrors es).
Proof.
  induction es as [| e es IH]; cbn [reconnect].
  - apply adds_ret; cleared.
  - apply adds_bind; [cleared | apply adds_connect |].
    intros [err |].
    + apply adds_bind; [cleared | apply adds_emit; cleared | intros _].
      apply adds_bind; [cleared | apply adds_emit; cleared | intros _].
      exact IH.
    + apply adds_bind; [cleared | apply adds_emit; cleared | intros _].
      apply adds_ret; cleared.
Qed.

Lemma adds_listen (ins : list listen_in) : adds always_cleared (listen decodeErrors ins).
Proof.
  induction ins as [| i ins IH]; cbn [listen].
  - apply adds_ret; cleared.
  - apply adds_bind; [cleared | apply adds_wsReceive; cleared | intros _].
    destruct (frame i) as [response | err].
    + apply adds_bind; [cleared | apply adds_responseChannelForID; cleared | intros ch].
      apply adds_bind; [cleared | | intros _; exact IH].
      destruct ch; [apply adds_emit; cleared | apply adds_ret; cleared].
    + apply adds_bind; [cleared | apply adds_Lock; cleared | intros _].
      apply adds_bind; [cleared | apply adds_get; cleared | intros m].
      destruct (negb (running m)).
      * apply adds_bind; [cleared | apply adds_Unlock; cleared | intros _].
        apply adds_ret; cleared.
      * apply adds_bind; [cleared | apply adds_Unlock; cleared | intros _].
        apply adds_bind; [cleared | apply adds_emit; cleared | intros _].
        apply adds_bind; [cleared | apply adds_reconnect | intros restored].
        destruct restored; [exact IH | apply adds_ret; cleared].
Qed.

(** Claim C8.  Every [connect] clears the registry before it dials: the trace of
    a call that is not stopped at the mutex of the registry starts with the
    clearing and the registry it leaves is empty; and in the trace of
    [listen], whatever the network answers, every dial of the request
    socket comes after a clearing of the registry with no registration and
    no other dial in between. *)
Theorem connect_clears_registry_before_dial :
  (∀ e w, responsesChanRegistryLock (mgr w) = false →
     ∃ tr, since w (connect decodeErrors e w).2 = EvClear :: tr
           ∧ responsesChanRegistry (mgr (connect decodeErrors e w).2) = ∅)
  ∧ (∀ ins w pre url ok post,
       since w (listen decodeErrors ins w).2 = pre ++ EvDial ApiSocket url ok :: post →
       ∃ a b, pre = a ++ EvClear :: b ∧ Forall (fun ev => quiet ev = true) b).
Proof.
  split.
  - intros e w Hfree.
    destruct (connect_clears_first e w) as [[Hheld _] | (tr & E & _ & Hreg)]; [congruence |].
    exists tr. split; [apply since_app, E | exact Hreg].
  - intros ins w pre url ok post Htr.
    destruct (adds_listen ins w) as (tr & E & Hq).
    rewrite (since_app _ _ _ E) in Htr. subst tr.
    destruct (cleared_at_dials_split pre post url ok false (Hq false)) as [[? _] | Hsplit];
      [discriminate | exact Hsplit].
Qed.

End Supervisor.

(** The connection dies with a channel registered; the first dial is
    refused, the second succeeds: the registry is cleared before each. *)
Lemma connect_clears_registry_before_dial_witness :
  let url := "wss://api.example.com/wsapi?token=T0&namespace=/ns" in
  let ins := [{| frame := RecvErr (ErrExternal "EOF");
                 attempts := [Sample.refused; Sample.accepted] |}] in
  let pre := [EvWsReceive ApiSocket;
              EvLog "warning" "Websocket connection died. Reconnecting...";
              EvClear; EvNewConfig url; EvDial ApiSocket url false;
              EvLog "warning" "Websocket not available. Retrying in 5s...";
              EvSleep (5 * Second);
              EvClear; EvNewConfig url] in
  (∃ tr, since Sample.w1 (connect Sample.decode Sample.accepted Sample.w1).2 = EvClear :: tr
         ∧ responsesChanRegistry (mgr (connect Sample.decode Sample.accepted Sample.w1).2) = ∅)
  ∧ since Sample.w1 (listen Sample.decode ins Sample.w1).2 =
      pre ++ EvDial ApiSocket url true
          :: [EvWsReceive ApiSocket; EvLog "info" "Websocket connection restored."]
  ∧ ∃ a b, pre = a ++ EvClear :: b ∧ Forall (fun ev => quiet ev = true) b.
Proof.
  intros url ins pre. split; [| split].
  - apply (proj1 (connect_clears_registry_before_dial Sample.decode)
             Sample.accepted Sample.w1).
    reflexivity.
  - reflexivity.
  - apply (proj2 (connect_clears_registry_before_dial Sample.decode)
             ins Sample.w1 pre url true
             [EvWsReceive ApiSocket; EvLog "info" "Websocket connection restored."]).
    reflexivity.
Defined.

(** ** Subscription worker: reconnection *)

Lemma check_app {S : Type} (step : S → event → option S) (st : S) (t1 t2 : list event) :
  check step st (t1 ++ t2) =
  match check step st t1 with
  | Some st' => check step st' t2
  | None => None
  end.
Proof.
  revert st. induction t1 as [| ev t1 IH]; intros st; cbn; [reflexivity |].
  destruct (step st ev); [apply IH | reflexivity].
Qed.

(** The checker is not idle: it refuses a call of the recovery handler after
    the first dial, a second call in a row, and a reconnection that is not
    followed by the call. *)
Example reco_run_refuses_initial (url : string) :
  reco_run Calm [EvDial EventSocket url true; EvPublish; EvRecovery] = None.
Proof. reflexivity. Qed.

Example reco_run_refuses_twice (url : string) (err : error) :
  reco_run Calm [EvHandler None (Some err); EvDial EventSocket url true; EvRecovery; EvRecovery]
  = None.
Proof. reflexivity. Qed.

Example reco_run_refuses_missing (url : string) (err : error) :
  reco_run Calm [EvHandler None (Some err); EvDial EventSocket url true; EvWsReceive EventSocket]
  = None.
Proof. reflexivity. Qed.

Section Triples.

(** A checker of traces, and the states in which a run must not end. *)
Context {S : Type}.
Variable step : S → event → option S.
Variable unfinished : S → Prop.
Variable aborted : world → Prop.

Lemma triple_bind {A B} P f (c : M A) Q g (k : A → M B) R h :
  triple step unfinished aborted P f c Q g → (∀ a, triple step unfinished aborted (Q a) g (k a) R h) → triple step unfinished aborted P f (c ≫= k) R h.
Proof.
  intros Hc Hk w HP. destruct (Hc w HP) as (t1 & st1 & E1 & R1 & H1).
  unfold mbind, M_bind. destruct (c w) as [[a | msg |] w']; cbn in *.
  - destruct H1 as [HQ ->].
    destruct (Hk a w' HQ) as (t2 & st2 & E2 & R2 & H2).
    exists (t1 ++ t2), st2. rewrite E2, E1, app_assoc, check_app, R1. auto.
  - exists t1, st1. auto.
  - exists t1, st1. auto.
Qed.

Lemma triple_pre {A} (P P' : world → Prop) f (c : M A) Q g :
  (∀ w, P' w → P w) → triple step unfinished aborted P f c Q g → triple step unfinished aborted P' f c Q g.
Proof. intros HP Hc w HP'. apply Hc, HP, HP'. Qed.

(** A body that always returns and leaves the trace alone. *)
Lemma triple_silent {A} P f (c : M A) (Q : A → world → Prop) g :
  (∀ w, P w → ∃ a, (c w).1 = Returned a ∧ events (c w).2 = events w
                   ∧ Q a (c w).2 ∧ f w = g (c w).2) →
  triple step unfinished aborted P f c Q g.
Proof.
  intros H w HP. destruct (H w HP) as (a & Ho & E & HQ & Hfg).
  exists [], (f w). rewrite app_nil_r, Ho. auto.
Qed.

Lemma triple_ret {A} P f (a : A) (Q : A → world → Prop) g :
  (∀ w, P w → Q a w ∧ f w = g w) → triple step unfinished aborted P f (mret a) Q g.
Proof. intros H. apply triple_silent. intros w HP. exists a. cbn. destruct (H w HP). auto. Qed.

Lemma triple_get P f (Q : websocketManipulator → world → Prop) g :
  (∀ w, P w → Q (mgr w) w ∧ f w = g w) → triple step unfinished aborted P f get Q g.
Proof. intros H. apply triple_silent. intros w HP. exists (mgr w). cbn. destruct (H w HP). auto. Qed.

Lemma triple_get_sub P f (Q : subscription → world → Prop) g :
  (∀ w, P w → Q (sub w) w ∧ f w = g w) → triple step unfinished aborted P f get_sub Q g.
Proof. intros H. apply triple_silent. intros w HP. exists (sub w). cbn. destruct (H w HP). auto. Qed.

Lemma triple_modify_sub P f u (Q : unit → world → Prop) g :
  (∀ w, P w → let w' := {| mgr := mgr w; sub := u (sub w); nextChan := nextChan w;
                           events := events w |} in
              Q tt w' ∧ f w = g w') →
  triple step unfinished aborted P f (modify_sub u) Q g.
Proof. intros H. apply triple_silent. intros w HP. exists tt. cbn. destruct (H w HP). auto. Qed.

Lemma triple_emit P f ev (Q : unit → world → Prop) g :
  (∀ w, P w → let w' := {| mgr := mgr w; sub := sub w; nextChan := nextChan w;
                           events := events w ++ [ev] |} in
              Q tt w' ∧ step (f w) ev = Some (g w')) →
  triple step unfinished aborted P f (emit ev) Q g.
Proof.
  intros H w HP. destruct (H w HP) as [HQ Hstep].
  exists [ev], (g (emit ev w).2). cbn. rewrite Hstep. auto.
Qed.

(** A body that stops (panics or blocks) without a trace. *)
Lemma triple_stop {A} P f (c : M A) (Q : A → world → Prop) g :
  (∀ w, P w → events (c w).2 = events w ∧ ¬ unfinished (f w) ∧ aborted (c w).2
              ∧ ∀ a, (c w).1 = Returned a → Q a (c w).2 ∧ f w = g (c w).2) →
  triple step unfinished aborted P f c Q g.
Proof.
  intros H w HP. destruct (H w HP) as (E & Hf & Hab & Hret).
  exists [], (f w). rewrite app_nil_r. split; [exact E |]. split; [reflexivity |].
  destruct (c w).1 as [a | |]; [apply Hret; reflexivity | auto | auto].
Qed.

End Triples.

Ltac open_sub w :=
  destruct w as [? [? ? [] []] ? ?]; unfold published, state_of, after_dial in *; cbn in *;
  try solve [intuition (discriminate || congruence)].

Lemma triple_currentPassword (b : bool) :
  reco_triple (published b) state_of currentPassword (fun _ => published b) state_of.
Proof.
  apply triple_stop. intros w HP.
  destruct w as [[? ? [] ? ? ? ? ? ? ? ? ? ?] s ? ?]; run.
  all: unfold published, state_of in *; cbn in *.
  all: destruct (needsReconnectionHandlerCall s); repeat split; try discriminate; auto.
  all: apply HP.
Qed.

Section SubscriptionTriples.

Variable identities : option (list Identity).
Variable allNamespaces : bool.
Variable handler : bool.

Lemma triple_disconnectFunc (b : bool) :
  reco_triple (published b) state_of disconnectFunc (fun _ => published b) state_of.
Proof.
  unfold disconnectFunc.
  eapply triple_bind with (Q := fun _ => published b) (g := state_of).
  { apply triple_modify_sub. intros w HP. open_sub w; auto. }
  intros _. eapply triple_bind with (Q := fun _ => published b) (g := state_of).
  { apply triple_get_sub. auto. }
  intros s. destruct (sub_ws s) as [c |]; [| apply triple_ret; auto].
  destruct (IsClientConn c); [| apply triple_ret; auto].
  eapply triple_bind with (Q := fun _ => published b) (g := state_of).
  { apply triple_emit. intros w HP. open_sub w; auto. }
  intros _. apply triple_modify_sub. intros w HP. open_sub w; auto.
Qed.

Lemma triple_call_handler_event (b : bool) (e : Event) :
  reco_triple (published b) state_of (call_handler handler (Some e) None)
    (fun _ => published b) state_of.
Proof.
  unfold call_handler. destruct handler.
  - apply triple_emit. intros w HP. open_sub w; auto.
  - apply triple_stop. intros w HP. open_sub w; repeat split; discriminate.
Qed.

Lemma triple_call_handler_failure (err : error) :
  reco_triple (published true) state_of (call_handler handler None (Some err))
    (fun _ => published true) (fun _ => Broken).
Proof.
  unfold call_handler. destruct handler.
  - apply triple_emit. intros w HP. open_sub w; auto.
  - apply triple_stop. intros w HP. open_sub w; repeat split; discriminate.
Qed.

Lemma triple_receive_events (fs : list receive_in) :
  reco_triple (published true) state_of (receive_events identities handler fs)
    (fun _ => published true) state_of.
Proof.
  induction fs as [| f fs IH]; cbn [receive_events].
  - apply triple_ret. auto.
  - eapply triple_bind with (Q := fun _ => published true) (g := state_of).
    { apply triple_emit. intros w HP. open_sub w; auto. }
    intros _. eapply triple_bind with (Q := fun _ => published true) (g := state_of).
    { destruct (unsubscribed f); [apply triple_disconnectFunc | apply triple_ret; auto]. }
    intros _. eapply triple_bind with (Q := fun _ => published true) (g := state_of).
    { apply triple_get_sub. auto. }
    intros s. destruct (stopped s); [apply triple_ret; auto |].
    destruct (message f) as [event | err].
    + eapply triple_bind with (Q := fun _ => published true) (g := state_of); [| intros _; exact IH].
      destruct (_ || _); [apply triple_call_handler_event | apply triple_ret; auto].
    + eapply triple_bind with (Q := fun _ => published true) (g := fun _ => Broken).
      { apply triple_call_handler_failure. }
      intros _. eapply triple_bind with (Q := fun _ => published true) (g := state_of).
      { apply triple_modify_sub. intros w [_ HP]. specialize (HP eq_refl).
        open_sub w; auto. }
      intros _. apply triple_ret. auto.
Qed.

(** The rounds of the worker of a subscription that has a recovery
    handler. *)
Lemma triple_subscribe_worker (b : bool) (ds : list dial_in) :
  reco_triple (published b) state_of (subscribe_worker identities allNamespaces handler true ds)
    (fun _ => published b) state_of.
Proof.
  induction ds as [| d ds IH]; cbn [subscribe_worker].
  - apply triple_ret. auto.
  - eapply triple_bind with (Q := fun _ => published b) (g := state_of).
    { apply triple_get. auto. }
    intros m. eapply triple_bind with (Q := fun _ => published b) (g := state_of).
    { apply triple_currentPassword. }
    intros token. eapply triple_bind with (Q := fun _ => published b) (g := state_of).
    { apply triple_emit. intros w HP. open_sub w; auto. }
    intros _. destruct (sub_config d) as [err |].
    { apply triple_stop. intros w HP. open_sub w; repeat split; discriminate. }
    eapply triple_bind with (Q := fun _ => published b) (g := state_of).
    { destruct (unsubscribed_before d); [apply triple_disconnectFunc | apply triple_ret; auto]. }
    intros _. eapply triple_bind with (Q := fun _ => published b) (g := state_of).
    { apply triple_get_sub. auto. }
    intros s. destruct (stopped s); [apply triple_ret; auto |].
    destruct (sub_dial d) as [err |]; cbn [succeeded].
    + (* the dial fails *)
      eapply triple_bind with (Q := fun _ => published b) (g := state_of).
      { apply triple_emit. intros w HP. open_sub w; auto. }
      intros _. eapply triple_bind with (Q := fun _ => published b) (g := state_of).
      { apply triple_modify_sub. intros w HP. open_sub w; auto. }
      intros _. eapply triple_bind with (Q := fun _ => published b) (g := state_of).
      { apply triple_emit. intros w HP. open_sub w; auto. }
      intros _. eapply triple_bind with (Q := fun _ => published b) (g := state_of).
      { apply triple_emit. intros w HP. open_sub w; auto. }
      intros _. exact IH.
    + (* the dial succeeds *)
      eapply triple_bind with (Q := fun _ => published b) (g := after_dial).
      { apply triple_emit. intros w HP. open_sub w; auto. }
      intros _. eapply triple_bind with (Q := fun _ => published b) (g := after_dial).
      { apply triple_modify_sub. intros w HP. open_sub w; auto. }
      intros _.
      eapply triple_bind with (Q := fun s' w => published b w ∧ s' = sub w) (g := after_dial).
      { apply triple_get_sub. auto. }
      intros s1. eapply triple_bind with (Q := fun _ => published b) (g := after_dial).
      { destruct (needsPublishDisconnectFunc s1) eqn:Hnp.
        - apply triple_emit. intros w [[HP1 HP2] ->].
          destruct (needsReconnectionHandlerCall (sub w)) eqn:Hnr;
            [rewrite HP1 in Hnp by reflexivity; discriminate |].
          unfold published, after_dial; cbn. rewrite Hnr. auto.
        - apply triple_ret. intros w [HP _]. auto. }
      intros _. eapply triple_bind with (Q := fun _ => published true) (g := after_dial).
      { apply triple_modify_sub. intros w HP. open_sub w; auto. }
      intros _.
      eapply triple_bind with (Q := fun s' w => published true w ∧ s' = sub w) (g := after_dial).
      { apply triple_get_sub. auto. }
      intros s2. eapply triple_bind with (Q := fun _ => published true) (g := state_of).
      { rewrite andb_true_r. destruct (needsReconnectionHandlerCall s2) eqn:Hnr.
        - eapply triple_bind
            with (Q := fun _ w => published true w
                                  ∧ needsReconnectionHandlerCall (sub w) = false)
                 (g := fun _ => Due).
          + apply triple_modify_sub. intros w [HP ->].
            unfold after_dial. rewrite Hnr. open_sub w; auto.
          + intros _. apply triple_emit. intros w [HP Hcalm]. open_sub w; auto.
        - apply triple_ret. intros w [HP ->].
          unfold after_dial, state_of. rewrite Hnr. auto. }
      intros _. eapply triple_bind with (Q := fun _ => published true) (g := state_of).
      { apply triple_receive_events. }
      intros left. destruct left.
      * eapply triple_pre; [| exact IH].
        intros w [HP1 HP2]. split; [exact HP1 | intros _; apply HP2; reflexivity].
      * apply triple_ret. intros w [HP1 HP2].
        split; [| reflexivity]. split; [exact HP1 | intros _; apply HP2; reflexivity].
Qed.

End SubscriptionTriples.

(** *** What the checker enforces *)

Lemma reco_to_broken (st : reco_state) (tr : list event) :
  reco_run st tr = Some Broken →
  st = Broken ∨ ∃ err, EvHandler None (Some err) ∈ tr.
Proof.
  revert st. induction tr as [| ev tr IH]; intros st H.
  - cbn in H. left. congruence.
  - cbn in H. destruct (reco_step st ev) as [st1 |] eqn:Hstep; [| discriminate].
    destruct (IH st1 H) as [-> | [err Herr]].
    + destruct st, ev as [ | | k url ok | | | | | | | | | | | | e err | ];
        try destruct e; try destruct err;
        cbn in Hstep; try discriminate; try (destruct k, ok; discriminate);
        try (left; reflexivity);
        right; eexists; apply list_elem_of_here.
    + right. exists err. apply list_elem_of_further, Herr.
Qed.

Lemma reco_to_due (st : reco_state) (tr : list event) :
  reco_run st tr = Some Due →
  (tr = [] ∧ st = Due)
  ∨ ∃ pre url, tr = pre ++ [EvDial EventSocket url true] ∧ reco_run st pre = Some Broken.
Proof.
  revert st. induction tr as [| ev tr IH] using rev_ind; intros st H.
  - left. cbn in H. split; [reflexivity | congruence].
  - right. unfold reco_run in *. rewrite check_app in H.
    destruct (check reco_step st tr) as [st1 |] eqn:Hpre; [| discriminate].
    cbn in H. destruct (reco_step st1 ev) as [st2 |] eqn:Hstep; [| discriminate].
    injection H as ->.
    destruct st1, ev as [ | | k url ok | | | | | | | | | | | | e err | ];
      try destruct e; try destruct err;
      cbn in Hstep; try discriminate; try (destruct k, ok; discriminate).
    destruct k, ok; try discriminate. exists tr, url. split; [reflexivity | exact Hpre].
Qed.

Lemma reco_stays_broken (tr : list event) (st : reco_state) :
  reco_run Broken tr = Some st →
  (∀ url, EvDial EventSocket url true ∉ tr) →
  st = Broken.
Proof.
  induction tr as [| ev tr IH]; intros H Hnone.
  - cbn in H. congruence.
  - unfold reco_run in *. change (check reco_step Broken (ev :: tr))
      with (match reco_step Broken ev with
            | Some st' => check reco_step st' tr
            | None => None
            end) in H.
    destruct (reco_step Broken ev) as [st1 |] eqn:Hstep; [| discriminate].
    assert (st1 = Broken) as ->.
    { destruct ev as [ | | k url ok | | | | | | | | | | | | e err | ];
        try destruct e; try destruct err;
        cbn in Hstep; try congruence.
      destruct k, ok; try congruence.
      exfalso. apply (Hnone url), list_elem_of_here. }
    apply IH; [exact H |]. intros url Hin. apply (Hnone url), list_elem_of_further, Hin.
Qed.

(** The recovery handler is called only right after a dial that succeeded,
    and a failed read was reported to the handler before that dial. *)
Lemma recovery_follows_reconnect (tr pre post : list event) :
  recovers_once_per_reconnect tr →
  tr = pre ++ EvRecovery :: post →
  ∃ pre' url err, pre = pre' ++ [EvDial EventSocket url true]
                  ∧ EvHandler None (Some err) ∈ pre'.
Proof.
  intros (st & Hrun & _) ->. unfold reco_run in Hrun. rewrite check_app in Hrun.
  destruct (check reco_step Calm pre) as [st1 |] eqn:Hpre; [| discriminate].
  cbn in Hrun. destruct st1; try discriminate.
  destruct (reco_to_due Calm pre Hpre) as [[_ ?] | (pre' & url & -> & Hbroken)];
    [discriminate |].
  destruct (reco_to_broken Calm pre' Hbroken) as [? | [err Herr]]; [discriminate |].
  exists pre', url, err. split; [reflexivity | exact Herr].
Qed.

(** Between two calls of the recovery handler a failed read is reported. *)
Lemma recovery_not_twice (tr pre mid post : list event) :
  recovers_once_per_reconnect tr →
  tr = pre ++ EvRecovery :: mid ++ EvRecovery :: post →
  ∃ err, EvHandler None (Some err) ∈ mid.
Proof.
  intros (st & Hrun & _) ->. unfold reco_run in Hrun. rewrite check_app in Hrun.
  destruct (check reco_step Calm pre) as [st1 |]; [| discriminate].
  cbn in Hrun. destruct st1; try discriminate. cbn in Hrun.
  rewrite check_app in Hrun.
  destruct (check reco_step Calm mid) as [st2 |] eqn:Hmid; [| discriminate].
  cbn in Hrun. destruct st2; try discriminate.
  destruct (reco_to_due Calm mid Hmid) as [[_ ?] | (mid' & url & -> & Hbroken)];
    [discriminate |].
  destruct (reco_to_broken Calm mid' Hbroken) as [? | [err Herr]]; [discriminate |].
  exists err. apply elem_of_app. left. exact Herr.
Qed.

(** The first dial that succeeds after a failed read was reported is
    followed at once by the call of the recovery handler. *)
Lemma recovery_at_reconnect (tr pre mid post : list event) (err : error) (url : string) :
  recovers_once_per_reconnect tr →
  tr = pre ++ EvHandler None (Some err) :: mid ++ EvDial EventSocket url true :: post →
  (∀ u, EvDial EventSocket u true ∉ mid) →
  ∃ post', post = EvRecovery :: post'.
Proof.
  intros (st & Hrun & Hend) -> Hmid. unfold reco_run in Hrun. rewrite check_app in Hrun.
  destruct (check reco_step Calm pre) as [st1 |]; [| discriminate].
  assert (st1 ≠ Due ∧ check reco_step Broken (mid ++ EvDial EventSocket url true :: post)
                      = Some st) as [_ Hrun'].
  { destruct st1; cbn in Hrun; (split; [discriminate | exact Hrun]) || discriminate. }
  clear Hrun. rename Hrun' into Hrun.
  rewrite check_app in Hrun.
  destruct (check reco_step Broken mid) as [st2 |] eqn:Hrun2; [| discriminate].
  apply reco_stays_broken in Hrun2 as ->; [| exact Hmid].
  cbn in Hrun. destruct post as [| ev post]; cbn in Hrun.
  - injection Hrun as <-. congruence.
  - destruct ev; try discriminate. eauto.
Qed.

(** The trace of a subscription that has a recovery handler passes the
    checker, whatever the network does and whenever the caller
    unsubscribes. *)
Lemma subscribe_trace_checked
    (identities : option (list Identity)) (allNamespaces handler : bool)
    (ds : list dial_in) (w : world) :
  recovers_once_per_reconnect
    (since w (Subscribe identities allNamespaces handler true ds w).2).
Proof.
  set (w0 := {| mgr := mgr w; sub := new_subscription; nextChan := nextChan w;
                events := events w |}).
  assert (published false w0) as Hinv by (split; discriminate).
  destruct (triple_subscribe_worker identities allNamespaces handler false ds w0 Hinv)
    as (tr & st & E & Hrun & Hend).
  assert ((Subscribe identities allNamespaces handler true ds w).2
          = (subscribe_worker identities allNamespaces handler true ds w0).2) as ->.
  { unfold Subscribe. fold w0.
    destruct (subscribe_worker identities allNamespaces handler true ds w0) as [o w'].
    cbn. destruct (needsPublishDisconnectFunc (sub w')); reflexivity. }
  rewrite (since_app w _ tr) by exact E.
  exists st. split; [exact Hrun |].
  destruct (subscribe_worker identities allNamespaces handler true ds w0).1 as [a | |];
    [| apply Hend | apply Hend].
  destruct Hend as [_ ->]. unfold state_of.
  destruct (needsReconnectionHandlerCall _); discriminate.
Qed.

(** Claim C6.  In the trace of a subscription that has a recovery handler,
    whatever the network does and whenever the caller unsubscribes: a call
    of the recovery handler comes right after a dial that succeeded, and a
    failed read was reported to the handler before that dial (so there is no
    call after the first dial); between two calls of the recovery handler a
    failed read is reported; and the first dial that succeeds after a failed
    read was reported is followed at once by the call. *)
Theorem recovery_handler_once_per_reconnect
    (identities : option (list Identity)) (allNamespaces handler : bool)
    (ds : list dial_in) (w : world) :
  let tr := since w (Subscribe identities allNamespaces handler true ds w).2 in
  recovers_once_per_reconnect tr
  ∧ (∀ pre post, tr = pre ++ EvRecovery :: post →
       ∃ pre' url err, pre = pre' ++ [EvDial EventSocket url true]
                       ∧ EvHandler None (Some err) ∈ pre')
  ∧ (∀ pre mid post, tr = pre ++ EvRecovery :: mid ++ EvRecovery :: post →
       ∃ err, EvHandler None (Some err) ∈ mid)
  ∧ (∀ pre err mid url post,
       tr = pre ++ EvHandler None (Some err) :: mid ++ EvDial EventSocket url true :: post →
       (∀ u, EvDial EventSocket u true ∉ mid) →
       ∃ post', post = EvRecovery :: post').
Proof.
  intros tr.
  pose proof (subscribe_trace_checked identities allNamespaces handler ds w) as Hchecked.
  fold tr in Hchecked. split; [exact Hchecked |]. split; [| split].
  - intros pre post. apply recovery_follows_reconnect, Hchecked.
  - intros pre mid post. apply recovery_not_twice, Hchecked.
  - intros pre err mid url post. apply recovery_at_reconnect, Hchecked.
Qed.

(** An event, a failed read, a dial that is refused, a dial that succeeds:
    the recovery handler is called once, after the last dial. *)
Lemma recovery_handler_once_per_reconnect_witness :
  let url := "wss://api.example.com/events?token=T0&namespace=/ns" in
  let ds := [Sample.dial_then [read_of Sample.thing_created; Sample.lost];
             Sample.dial_refused; Sample.dial_then []] in
  let pre := [EvNewConfig url; EvDial EventSocket url true; EvPublish;
              EvWsReceive EventSocket; EvHandler (Some Sample.thing_created) None;
              EvWsReceive EventSocket] in
  let mid := [EvNewConfig url; EvDial EventSocket url false;
              EvLog "warning" "Could not connect to websocket. Retrying in 5s";
              EvSleep (5 * Second); EvNewConfig url] in
  since Sample.w0 (Subscribe None false true true ds Sample.w0).2 =
    pre ++ EvHandler None (Some (ErrExternal "EOF")) :: mid
        ++ EvDial EventSocket url true :: [EvRecovery]
  ∧ ∃ post', [EvRecovery] = EvRecovery :: post'.
Proof.
  intros url ds pre mid. split; [reflexivity |].
  apply (proj2 (proj2 (proj2
           (recovery_handler_once_per_reconnect None false true ds Sample.w0)))
           pre (ErrExternal "EOF") mid url [EvRecovery]).
  - reflexivity.
  - intros u Hin. repeat (apply elem_of_cons in Hin as [Hin | Hin]; [discriminate |]).
    apply elem_of_nil in Hin. exact Hin.
Defined.


(** ** Subscription worker: the return of [Subscribe] *)

Ltac plain_step :=
  first [ apply triple_ret | apply triple_get | apply triple_get_sub
        | apply triple_emit | apply triple_modify_sub ];
  let w := fresh "w" in
  let HP := fresh "HP" in
  intros w HP; unfold handed_out in *; cbn in *; auto.

Lemma plain_currentPassword (b : bool) :
  plain_triple b (handed_out b) anywhere currentPassword (fun _ => handed_out b) anywhere.
Proof.
  apply triple_stop. intros w HP.
  destruct w as [[? ? [] ? ? ? ? ? ? ? ? ? ?] s ? ?]; run; unfold handed_out in *; cbn in *; auto.
Qed.

Section PlainTriples.

Variable identities : option (list Identity).
Variable allNamespaces : bool.
Variable handler : bool.
Variable recoHandler : bool.

Lemma plain_disconnectFunc (b : bool) :
  plain_triple b (handed_out b) anywhere disconnectFunc (fun _ => handed_out b) anywhere.
Proof.
  unfold disconnectFunc.
  eapply triple_bind with (Q := fun _ => handed_out b) (g := anywhere); [plain_step |].
  intros _. eapply triple_bind with (Q := fun _ => handed_out b) (g := anywhere); [plain_step |].
  intros s. destruct (sub_ws s) as [c |]; [| plain_step].
  destruct (IsClientConn c); [| plain_step].
  eapply triple_bind with (Q := fun _ => handed_out b) (g := anywhere); [plain_step |].
  intros _. plain_step.
Qed.

Lemma plain_call_handler (b : bool) (e : option Event) (err : option error) :
  plain_triple b (handed_out b) anywhere (call_handler handler e err)
    (fun _ => handed_out b) anywhere.
Proof.
  unfold call_handler. destruct handler; [plain_step |].
  apply triple_stop. intros w HP. cbn.
  split; [reflexivity |]. split; [tauto |]. split; [exact HP | discriminate].
Qed.

Lemma plain_receive_events (b : bool) (fs : list receive_in) :
  plain_triple b (handed_out b) anywhere (receive_events identities handler fs)
    (fun _ => handed_out b) anywhere.
Proof.
  induction fs as [| f fs IH]; cbn [receive_events]; [plain_step |].
  eapply triple_bind with (Q := fun _ => handed_out b) (g := anywhere); [plain_step |].
  intros _. eapply triple_bind with (Q := fun _ => handed_out b) (g := anywhere).
  { destruct (unsubscribed f); [apply plain_disconnectFunc | plain_step]. }
  intros _. eapply triple_bind with (Q := fun _ => handed_out b) (g := anywhere); [plain_step |].
  intros s. destruct (stopped s); [plain_step |].
  destruct (message f) as [event | err].
  - eapply triple_bind with (Q := fun _ => handed_out b) (g := anywhere); [| intros _; exact IH].
    destruct (_ || _); [apply plain_call_handler | plain_step].
  - eapply triple_bind with (Q := fun _ => handed_out b) (g := anywhere);
      [apply plain_call_handler |].
    intros _. eapply triple_bind with (Q := fun _ => handed_out b) (g := anywhere);
      [plain_step |].
    intros _. plain_step.
Qed.

Lemma plain_subscribe_worker (b : bool) (ds : list dial_in) :
  plain_triple b (handed_out b) anywhere
    (subscribe_worker identities allNamespaces handler recoHandler ds)
    (fun _ => handed_out b) anywhere.
Proof.
  induction ds as [| d ds IH]; cbn [subscribe_worker]; [plain_step |].
  eapply triple_bind with (Q := fun _ => handed_out b) (g := anywhere); [plain_step |].
  intros m. eapply triple_bind with (Q := fun _ => handed_out b) (g := anywhere);
    [apply plain_currentPassword |].
  intros token. eapply triple_bind with (Q := fun _ => handed_out b) (g := anywhere);
    [plain_step |].
  intros _. destruct (sub_config d) as [err |].
  { apply triple_stop. intros w HP. cbn.
    split; [reflexivity |]. split; [tauto |]. split; [exact HP | discriminate]. }
  eapply triple_bind with (Q := fun _ => handed_out b) (g := anywhere).
  { destruct (unsubscribed_before d); [apply plain_disconnectFunc | plain_step]. }
  intros _. eapply triple_bind with (Q := fun _ => handed_out b) (g := anywhere); [plain_step |].
  intros s. destruct (stopped s); [plain_step |].
  eapply triple_bind with (Q := fun _ => handed_out b) (g := anywhere); [plain_step |].
  intros _. eapply triple_bind with (Q := fun _ => handed_out b) (g := anywhere); [plain_step |].
  intros _. destruct (sub_dial d) as [err |].
  - eapply triple_bind with (Q := fun _ => handed_out b) (g := anywhere); [plain_step |].
    intros _. eapply triple_bind with (Q := fun _ => handed_out b) (g := anywhere);
      [plain_step |].
    intros _. exact IH.
  - eapply triple_bind with (Q := fun _ => handed_out b) (g := anywhere); [plain_step |].
    intros s1. eapply triple_bind with (Q := fun _ => handed_out b) (g := anywhere).
    { destruct (needsPublishDisconnectFunc s1); plain_step. }
    intros _. eapply triple_bind with (Q := fun _ => handed_out b) (g := anywhere);
      [plain_step |].
    intros _. eapply triple_bind with (Q := fun _ => handed_out b) (g := anywhere);
      [plain_step |].
    intros s2. eapply triple_bind with (Q := fun _ => handed_out b) (g := anywhere).
    { destruct (_ && _); [| plain_step].
      eapply triple_bind with (Q := fun _ => handed_out b) (g := anywhere); [plain_step |].
      intros _. plain_step. }
    intros _. eapply triple_bind with (Q := fun _ => handed_out b) (g := anywhere);
      [apply plain_receive_events |].
    intros left. destruct left; [exact IH | plain_step].
Qed.

Lemma plain_resume (b : bool) (d : dial_in) (ds : list dial_in) :
  plain_triple b (handed_out b) anywhere (resume identities allNamespaces handler recoHandler d ds) (fun _ => handed_out b) anywhere.
Proof.
  unfold resume.
  eapply triple_bind with (Q := fun _ => handed_out b) (g := anywhere);
    [apply plain_receive_events |].
  intros left. destruct left; [apply plain_subscribe_worker | plain_step].
Qed.

Ltac open_round d w :=
  destruct d as [cfg ub dl fs];
  destruct w as [[? ? ? ? ? ? ? ? ? ? ? ? ?] [sws stp np nr] ? ?];
  cbn in *; subst.

Lemma round_failed (d : dial_in) (ds : list dial_in) (w : world) :
  renewLock (mgr w) = false → stopped (sub w) = false → quiet_failure d →
  subscribe_worker identities allNamespaces handler recoHandler (d :: ds) w =
  subscribe_worker identities allNamespaces handler recoHandler ds
    {| mgr := mgr w; sub := set_sub_ws None (sub w); nextChan := nextChan w;
       events := events w ++ retry (events_url allNamespaces w) |}.
Proof.
  intros Hfree Hlive (Hcfg & Hub & Hdial).
  open_round d w. destruct dl; [| discriminate].
  cbn [subscribe_worker]. unfold events_url, retry. run. reflexivity.
Qed.

Lemma round_dialed (d : dial_in) (ds : list dial_in) (w : world) :
  renewLock (mgr w) = false → stopped (sub w) = false →
  needsPublishDisconnectFunc (sub w) = true →
  sub_config d = None → unsubscribed_before d = false → succeeded (sub_dial d) = true →
  ∃ w1, subscribe_worker identities allNamespaces handler recoHandler (d :: ds) w
        = resume identities allNamespaces handler recoHandler d ds w1
        ∧ needsPublishDisconnectFunc (sub w1) = false
        ∧ ∃ more, events w1 = events w
                    ++ [EvNewConfig (events_url allNamespaces w); EvDial EventSocket (events_url allNamespaces w) true;
                        EvPublish] ++ more.
Proof.
  intros Hfree Hlive Hnp Hcfg Hub Hdial.
  open_round d w. destruct dl; [discriminate |].
  cbn [subscribe_worker]. unfold events_url, resume. run.
  destruct (nr && recoHandler); run.
  - eexists. split; [reflexivity |]. split; [reflexivity |]. exists [EvRecovery]. reflexivity.
  - eexists. split; [reflexivity |]. split; [reflexivity |]. exists []. reflexivity.
Qed.

(** A round that ends before the dial leaves the closure unpublished. *)
Lemma round_stopped (d : dial_in) (ds : list dial_in) (w : world) :
  renewLock (mgr w) = true ∨ is_Some (sub_config d) ∨ unsubscribed_before d = true
  ∨ stopped (sub w) = true →
  needsPublishDisconnectFunc
    (sub (subscribe_worker identities allNamespaces handler recoHandler (d :: ds) w).2)
  = needsPublishDisconnectFunc (sub w).
Proof.
  intros Hstop. destruct d as [cfg ub dl fs].
  destruct w as [[? ? ln ? ? ? ? ? ? ? ? ? ?] [sws stp np nr] ? ?]; cbn in *.
  cbn [subscribe_worker]. destruct ln; run; [reflexivity |].
  destruct cfg; run; [reflexivity |].
  destruct ub; run.
  - destruct sws as [[[] ?] |]; run; reflexivity.
  - destruct stp; run; [reflexivity |].
    destruct Hstop as [? | [[? ?] | [? | ?]]]; discriminate.
Qed.

End PlainTriples.

Section ReturnOfSubscribe.

Variable identities : option (list Identity).
Variable allNamespaces : bool.
Variable handler : bool.
Variable recoHandler : bool.

Local Abbreviation worker := (subscribe_worker identities allNamespaces handler recoHandler).

(** Whatever its outcome, a body with a plain triple extends the trace and
    keeps [handed_out b]. *)
Lemma plain_triple_end {A} (b : bool) (c : M A) (w : world) :
  plain_triple b (handed_out b) anywhere c (fun _ => handed_out b) anywhere →
  handed_out b w →
  (∃ tr, events (c w).2 = events w ++ tr) ∧ handed_out b (c w).2.
Proof.
  intros Hc HP. destruct (Hc w HP) as (tr & st & E & _ & Hend).
  split; [eauto |]. destruct (c w).1; apply Hend.
Qed.

(** When the worker ends with the closure published, some dial succeeded:
    the rounds before it each dialed, failed and slept 5 seconds, and the
    closure was published right after the dial. *)
Lemma worker_publishes_after_dial (ds : list dial_in) (w : world) :
  needsPublishDisconnectFunc (sub w) = true →
  needsPublishDisconnectFunc (sub (worker ds w).2) = false →
  ∃ pre d post more,
    ds = pre ++ d :: post
    ∧ Forall (fun d => succeeded (sub_dial d) = false) pre
    ∧ succeeded (sub_dial d) = true
    ∧ events (worker ds w).2 =
        events w ++ flat_map (fun _ => retry (events_url allNamespaces w)) pre
                 ++ [EvNewConfig (events_url allNamespaces w);
                     EvDial EventSocket (events_url allNamespaces w) true;
                     EvPublish] ++ more.
Proof.
  revert w. induction ds as [| d ds IH]; intros w Hnp Hend.
  - cbn in Hend. congruence.
  - destruct (renewLock (mgr w)) eqn:Hlock;
      [rewrite round_stopped in Hend by auto; congruence |].
    destruct (sub_config d) as [err |] eqn:Hcfg;
      [rewrite round_stopped in Hend by (rewrite Hcfg; eauto); congruence |].
    destruct (unsubscribed_before d) eqn:Hub;
      [rewrite round_stopped in Hend by auto; congruence |].
    destruct (stopped (sub w)) eqn:Hlive;
      [rewrite round_stopped in Hend by auto; congruence |].
    destruct (succeeded (sub_dial d)) eqn:Hdial.
    + destruct (round_dialed identities allNamespaces handler recoHandler d ds w)
        as (w1 & Heq & Hnp1 & more & E1); try assumption.
      rewrite Heq.
      destruct (plain_triple_end false
                  (resume identities allNamespaces handler recoHandler d ds) w1)
        as [[tr E] _]; [apply plain_resume | discriminate |].
      exists [], d, ds, (more ++ tr). split; [reflexivity |]. split; [constructor |].
      split; [exact Hdial |]. rewrite E, E1. cbn. rewrite <- !app_assoc. reflexivity.
    + rewrite round_failed in Hend |- * by (unfold quiet_failure; auto).
      match type of Hend with
      | context [worker ds ?w1] =>
          destruct (IH w1) as (pre & d' & post & more & -> & Hpre & Hd' & E);
            [destruct w as [? [] ? ?]; exact Hnp | exact Hend |]
      end.
      exists (d :: pre), d', post, more. split; [reflexivity |].
      split; [constructor; assumption |]. split; [exact Hd' |].
      rewrite E. cbn [flat_map events mgr].
      unfold events_url; cbn [mgr]. rewrite <- !app_assoc. reflexivity.
Qed.

(** After rounds whose dials fail, a dial that succeeds publishes the
    closure, and it stays published whatever follows. *)
Lemma worker_publishes (pre : list dial_in) (d : dial_in) (post : list dial_in) (w : world) :
  renewLock (mgr w) = false →
  stopped (sub w) = false →
  needsPublishDisconnectFunc (sub w) = true →
  Forall quiet_failure pre →
  sub_config d = None → unsubscribed_before d = false → succeeded (sub_dial d) = true →
  needsPublishDisconnectFunc (sub (worker (pre ++ d :: post) w).2) = false.
Proof.
  intros Hlock Hlive Hnp Hpre Hcfg Hub Hdial. revert w Hlock Hlive Hnp.
  induction Hpre as [| d0 pre Hd0 Hpre IH]; intros w Hlock Hlive Hnp; cbn [app].
  - destruct (round_dialed identities allNamespaces handler recoHandler d post w)
      as (w1 & -> & Hnp1 & _); try assumption.
    destruct (plain_triple_end true
                (resume identities allNamespaces handler recoHandler d post) w1)
      as [_ Hkept]; [apply plain_resume | intros _; exact Hnp1 |].
    apply Hkept. reflexivity.
  - rewrite round_failed by assumption.
    apply IH; destruct w as [? [] ? ?]; assumption.
Qed.

(** Claim C10.  A call of [Subscribe] that returns hands back the closure and a
    nil error, and it returns only when a dial has succeeded: the rounds
    before that dial each dialed, failed and slept 5 seconds, and the
    closure was published right after the dial.  When every dial fails the
    call does not return.  When a dial succeeds after dials that failed
    (the address being well formed), the call returns. *)
Theorem Subscribe_returns_after_first_dial (ds : list dial_in) (w : world) :
  let r := Subscribe identities allNamespaces handler recoHandler ds w in
  let url := events_url allNamespaces w in
  (∀ h err, r.1 = Returned (h, err) →
     err = None ∧ h = Some disconnectFunc
     ∧ ∃ pre d post more,
         ds = pre ++ d :: post
         ∧ Forall (fun d => succeeded (sub_dial d) = false) pre
         ∧ succeeded (sub_dial d) = true
         ∧ since w r.2 =
             flat_map (fun _ => retry url) pre
             ++ [EvNewConfig url; EvDial EventSocket url true; EvPublish] ++ more)
  ∧ (Forall (fun d => succeeded (sub_dial d) = false) ds → ∀ a, r.1 ≠ Returned a)
  ∧ (∀ pre d post,
       ds = pre ++ d :: post →
       renewLock (mgr w) = false →
       Forall quiet_failure pre →
       sub_config d = None → unsubscribed_before d = false → succeeded (sub_dial d) = true →
       r.1 = Returned (Some disconnectFunc, None)).
Proof.
  intros r url. subst r.
  set (w0 := {| mgr := mgr w; sub := new_subscription; nextChan := nextChan w;
                events := events w |}).
  assert (∀ h err,
            (Subscribe identities allNamespaces handler recoHandler ds w).1 = Returned (h, err) →
            err = None ∧ h = Some disconnectFunc
            ∧ needsPublishDisconnectFunc (sub (worker ds w0).2) = false) as Hret.
  { intros h err. unfold Subscribe. fold w0. destruct (worker ds w0) as [o w']. cbn.
    destruct (needsPublishDisconnectFunc (sub w')); cbn.
    - destruct o; discriminate.
    - intros [= <- <-]. auto. }
  assert ((Subscribe identities allNamespaces handler recoHandler ds w).2 = (worker ds w0).2)
    as Hworld.
  { unfold Subscribe. fold w0. destruct (worker ds w0) as [o w']. cbn.
    destruct (needsPublishDisconnectFunc (sub w')); reflexivity. }
  split; [| split].
  - intros h err Hr. destruct (Hret h err Hr) as (-> & -> & Hnp).
    split; [reflexivity |]. split; [reflexivity |].
    destruct (worker_publishes_after_dial ds w0 eq_refl Hnp)
      as (pre & d & post & more & -> & Hpre & Hd & E).
    exists pre, d, post, more. split; [reflexivity |]. split; [exact Hpre |].
    split; [exact Hd |]. rewrite Hworld. apply since_app. exact E.
  - intros Hall [h err] Hr. destruct (Hret h err Hr) as (_ & _ & Hnp).
    destruct (worker_publishes_after_dial ds w0 eq_refl Hnp)
      as (pre & d & post & more & -> & _ & Hd & _).
    apply Forall_app in Hall as [_ Hall]. apply Forall_cons in Hall as [Hd' _]. congruence.
  - intros pre d post -> Hlock Hpre Hcfg Hub Hdial.
    pose proof (worker_publishes pre d post w0 Hlock eq_refl eq_refl Hpre Hcfg Hub Hdial)
      as Hnp.
    unfold Subscribe. fold w0.
    destruct (worker (pre ++ d :: post) w0) as [o w']. cbn in *. rewrite Hnp. reflexivity.
Qed.

End ReturnOfSubscribe.

Lemma Subscribe_returns_after_first_dial_witness :
  let ds := [Sample.dial_refused; Sample.dial_refused; Sample.dial_then []] in
  (Subscribe None false true true ds Sample.w0).1 = Returned (Some (disconnectFunc), None).
Proof.
  intros ds.
  apply (proj2 (proj2 (Subscribe_returns_after_first_dial None false true true ds Sample.w0))
           [Sample.dial_refused; Sample.dial_refused] (Sample.dial_then []) []);
    try reflexivity.
  repeat constructor.
Defined.

(** * Further properties *)

(** ** Response router: registration, lookup, removal *)

Lemma unregisterResponseChannel_run (rid : string) (w : world) :
  responsesChanRegistryLock (mgr w) = false →
  unregisterResponseChannel rid w =
    (Returned tt,
     {| mgr := set_registry (delete rid (responsesChanRegistry (mgr w))) (mgr w);
        sub := sub w;
        nextChan := nextChan w;
        events := events w ++ [EvUnregister rid] |}).
Proof. intros Hfree. destruct w as [[] ? ? ?]; cbn in *; subst. reflexivity. Qed.

Lemma responseChannelForID_run (rid : string) (w : world) :
  responsesChanRegistryLock (mgr w) = false →
  responseChannelForID rid w = (Returned (responsesChanRegistry (mgr w) !! rid), w).
Proof. intros Hfree. destruct w as [[] ? ? ?]; cbn in *; subst. reflexivity. Qed.

(** X1.  A channel that was registered is the one a lookup of its
    identifier finds afterwards; the lookup of another identifier finds what
    it found before the registration, and a lookup changes nothing. *)
Theorem register_then_lookup (rid : string) (w : world) :
  responsesChanRegistryLock (mgr w) = false →
  let r := registerResponseChannel rid w in
  r.1 = Returned (nextChan w)
  ∧ responseChannelForID rid r.2 = (Returned (Some (nextChan w)), r.2)
  ∧ ∀ rid', rid' ≠ rid →
      (responseChannelForID rid' r.2).1 = (responseChannelForID rid' w).1.
Proof.
  intros Hfree r. subst r. rewrite registerResponseChannel_run by assumption.
  split; [reflexivity |].
  rewrite !responseChannelForID_run by (destruct w as [[] ? ? ?]; assumption).
  split.
  - cbn. destruct (mgr w); cbn. rewrite lookup_insert_eq. reflexivity.
  - intros rid' Hne. rewrite !responseChannelForID_run by (destruct w as [[] ? ? ?]; assumption).
    cbn. destruct (mgr w); cbn. rewrite lookup_insert_ne by congruence. reflexivity.
Qed.

Lemma register_then_lookup_witness :
  let r := registerResponseChannel "r2" Sample.w1 in
  r.1 = Returned 1%nat
  ∧ responseChannelForID "r2" r.2 = (Returned (Some 1%nat), r.2)
  ∧ ∀ rid', rid' ≠ "r2" →
      (responseChannelForID rid' r.2).1 = (responseChannelForID rid' Sample.w1).1.
Proof. apply (register_then_lookup "r2" Sample.w1). reflexivity. Defined.

(** X2.  [unregisterResponseChannel] removes the entry of its identifier
    and no other; on an identifier that is not registered it leaves the
    manipulator as it is, so removing twice is removing once. *)
Theorem unregisterResponseChannel_removes (rid : string) (w : world) :
  responsesChanRegistryLock (mgr w) = false →
  let w' := (unregisterResponseChannel rid w).2 in
  (unregisterResponseChannel rid w).1 = Returned tt
  ∧ responsesChanRegistry (mgr w') !! rid = None
  ∧ (∀ rid', rid' ≠ rid →
       responsesChanRegistry (mgr w') !! rid' = responsesChanRegistry (mgr w) !! rid')
  ∧ (responsesChanRegistry (mgr w) !! rid = None → mgr w' = mgr w)
  ∧ mgr (unregisterResponseChannel rid w').2 = mgr w'.
Proof.
  intros Hfree w'. subst w'.
  rewrite !unregisterResponseChannel_run
    by (try rewrite unregisterResponseChannel_run by assumption;
        destruct w as [[] ? ? ?]; assumption).
  destruct w as [[reg ? ? ? ? ? ? ? ? ? ? ? ?] ? ? ?]; cbn in *.
  split; [reflexivity |]. split; [apply lookup_delete_eq |].
  split; [intros rid' Hne; apply lookup_delete_ne; congruence |].
  split.
  - intros Habsent. rewrite delete_id by assumption. reflexivity.
  - rewrite delete_delete_eq. reflexivity.
Qed.

Lemma unregisterResponseChannel_removes_witness :
  responsesChanRegistry (mgr (unregisterResponseChannel "r1" Sample.w1).2) !! "r1" = None.
Proof.
  apply (unregisterResponseChannel_removes "r1" Sample.w1). reflexivity.
Defined.

(** X3.  Registering a channel and removing it again leaves the
    manipulator as it was when the identifier was not registered before;
    when it was, the channel registered before is gone as well. *)
Theorem register_then_unregister (rid : string) (w : world) :
  responsesChanRegistryLock (mgr w) = false →
  let w' := (unregisterResponseChannel rid (registerResponseChannel rid w).2).2 in
  responsesChanRegistry (mgr w') = delete rid (responsesChanRegistry (mgr w))
  ∧ (responsesChanRegistry (mgr w) !! rid = None → mgr w' = mgr w)
  ∧ (∀ old, responsesChanRegistry (mgr w) !! rid = Some old →
       responsesChanRegistry (mgr w') !! rid = None).
Proof.
  intros Hfree w'. subst w'.
  rewrite registerResponseChannel_run by assumption.
  rewrite unregisterResponseChannel_run by (destruct w as [[] ? ? ?]; assumption).
  destruct w as [[reg ? ? ? ? ? ? ? ? ? ? ? ?] ? ? ?]; cbn in *.
  rewrite delete_insert_eq.
  split; [reflexivity |]. split.
  - intros Habsent. rewrite delete_id by assumption. reflexivity.
  - intros old _. apply lookup_delete_eq.
Qed.

Lemma register_then_unregister_witness :
  let w' := (unregisterResponseChannel "r1" (registerResponseChannel "r1" Sample.w1).2).2 in
  responsesChanRegistry (mgr Sample.w1) !! "r1" = Some 0%nat
  ∧ responsesChanRegistry (mgr w') !! "r1" = None.
Proof.
  intros w'. split; [reflexivity |].
  apply (proj2 (proj2 (register_then_unregister "r1" Sample.w1 eq_refl)) 0%nat).
  reflexivity.
Defined.

(** ** Credential store and token refresher *)

(** X4.  The password stored by [setPassword] is the one [currentPassword]
    returns afterwards; storing it changes nothing else in the manipulator,
    and reading it changes nothing at all. *)
Theorem setPassword_then_currentPassword (p : string) (w : world) :
  renewLock (mgr w) = false →
  let w' := (setPassword p w).2 in
  (setPassword p w).1 = Returned tt
  ∧ mgr w' = set_password p (mgr w)
  ∧ currentPassword w' = (Returned p, w').
Proof.
  intros Hfree. destruct w as [[] ? ? ?]; cbn in *; subst.
  split; [reflexivity |]. split; reflexivity.
Qed.

Lemma setPassword_then_currentPassword_witness :
  currentPassword (setPassword "T1" Sample.w0).2 = (Returned "T1", (setPassword "T1" Sample.w0).2).
Proof. apply (setPassword_then_currentPassword "T1" Sample.w0). reflexivity. Defined.

Lemma renewMidgardToken_tick_run (token : string) (err : option error) (w : world) :
  renewLock (mgr w) = false →
  renewMidgardToken_tick token err w =
    (Returned tt,
     {| mgr := set_password token (mgr w);
        sub := sub w;
        nextChan := nextChan w;
        events := events w
                  ++ [EvLog "info" "Refreshing Midgard token..."; EvIssue]
                  ++ match err with
                     | Some _ => [EvLog "error" "Unable to renew token."]
                     | None => []
                     end |}).
Proof.
  intros Hfree. destruct w as [[] ? ? ?]; cbn in *; subst.
  destruct err; unfold renewMidgardToken_tick; run; rewrite ?app_nil_r; reflexivity.
Qed.

(** The refresh loop, run from a free [renewLock]. *)
Lemma renewMidgardToken_run (ins : list renew_in) (w : world) :
  renewLock (mgr w) = false →
  ∃ tr, renewMidgardToken ins w =
          (Returned (if stop_signalled ins then Exited else Pending),
           {| mgr := set_password
                       (default (password (mgr w)) (last (tokens_before_stop ins)))
                       (mgr w);
              sub := sub w; nextChan := nextChan w;
              events := events w ++ tr |})
        ∧ length (filter is_issue tr) = length (tokens_before_stop ins).
Proof.
  revert w. induction ins as [| [token err |] ins IH]; intros w Hfree.
  - exists []. cbn. rewrite app_nil_r. destruct w as [[] ? ? ?]; cbn in *. auto.
  - cbn [renewMidgardToken]. unfold mbind, M_bind.
    rewrite renewMidgardToken_tick_run by assumption.
    match goal with
    | |- context [renewMidgardToken ins ?w1] =>
        destruct (IH w1) as (tr & -> & Hcount);
          [destruct w as [[] ? ? ?]; exact Hfree |]
    end.
    eexists. split.
    + cbn [stop_signalled tokens_before_stop mgr sub nextChan events].
      f_equal. f_equal.
      * destruct w as [[] ? ? ?]; cbn.
        destruct (tokens_before_stop ins) as [| t ts] eqn:E; cbn; [reflexivity |].
        rewrite last_cons. destruct (last ts); reflexivity.
      * rewrite <- app_assoc. reflexivity.
    + cbn [tokens_before_stop length]. rewrite <- Hcount.
      destruct err; cbn; reflexivity.
  - exists []. cbn. rewrite app_nil_r. destruct w as [[] ? ? ?]; cbn in *. auto.
Qed.

(** X5.  The refresh loop asks the identity provider once per tick until
    the stop signal arrives and then returns, whatever would come after; the
    password it leaves is the token of the last tick before the stop signal,
    or the password from before the loop when there was no tick, and nothing
    else in the manipulator changes. *)
Theorem renewMidgardToken_keeps_last_token (ins : list renew_in) (w : world) :
  renewLock (mgr w) = false →
  let r := renewMidgardToken ins w in
  r.1 = Returned (if stop_signalled ins then Exited else Pending)
  ∧ mgr r.2 = set_password (default (password (mgr w)) (last (tokens_before_stop ins))) (mgr w)
  ∧ length (filter is_issue (since w r.2))
    = length (tokens_before_stop ins).
Proof.
  intros Hfree r. subst r.
  destruct (renewMidgardToken_run ins w Hfree) as (tr & -> & Hcount).
  split; [reflexivity |]. split; [reflexivity |].
  rewrite (since_app w _ tr) by reflexivity. exact Hcount.
Qed.

Lemma renewMidgardToken_keeps_last_token_witness :
  let ins := [Tick "T1" None; Tick "T2" None; StopSignal; Tick "T3" None] in
  (renewMidgardToken ins Sample.w0).1 = Returned Exited
  ∧ password (mgr (renewMidgardToken ins Sample.w0).2) = "T2".
Proof.
  intros ins.
  destruct (renewMidgardToken_keeps_last_token ins Sample.w0 eq_refl) as (H1 & H2 & _).
  split; [exact H1 |]. rewrite H2. reflexivity.
Defined.

(** ** Request gateway: the exits of [send] *)

(** X6.  [send] fails fast.  Without a socket it returns [CannotCommunicate]
    with the text [Websocket not initialized] and does nothing; when the
    write fails it returns [CannotCommunicate] with the text of the write
    error, having registered no channel: manipulator and allocator are as
    before. *)
Theorem send_fails_fast (decodeErrors : Response -> error) (request : Request) (e : send_in)
    (w : world) :
  (ws (mgr w) = None →
     send decodeErrors request e w =
       (Returned (None, Some (ErrCannotCommunicate "Websocket not initialized")), w))
  ∧ (∀ c err, ws (mgr w) = Some c → write_result e = Some err →
       (send decodeErrors request e w).1 =
         Returned (None, Some (ErrCannotCommunicate (Error err)))
       ∧ mgr (send decodeErrors request e w).2 = mgr w
       ∧ nextChan (send decodeErrors request e w).2 = nextChan w
       ∧ since w (send decodeErrors request e w).2 = [EvWsSend (RequestID request)]).
Proof.
  split.
  - intros Hws. destruct w as [[] ? ? ?]; cbn in *; subst. reflexivity.
  - intros c err Hws Hwrite. destruct w as [[] ? ? ?], e; cbn in *; subst.
    unfold send, since. run. rewrite drop_app_length. repeat split; reflexivity.
Qed.

Lemma send_fails_fast_witness :
  let e := {| write_result := Some (ErrExternal "broken pipe"); meanwhile := id;
              arrival := NoDelivery; tie_timeout := false |} in
  (send Sample.decode Sample.request e Sample.w0).1 =
    Returned (None, Some (ErrCannotCommunicate "broken pipe"))
  ∧ mgr (send Sample.decode Sample.request e Sample.w0).2 = mgr Sample.w0
  ∧ nextChan (send Sample.decode Sample.request e Sample.w0).2 = nextChan Sample.w0
  ∧ since Sample.w0 (send Sample.decode Sample.request e Sample.w0).2 = [EvWsSend "r1"].
Proof.
  intros e.
  apply (proj2 (send_fails_fast Sample.decode Sample.request e Sample.w0)
           dialed (ErrExternal "broken pipe")); reflexivity.
Defined.

(** X7.  Once the frame is written, [send] removes its waiter on every way
    out, whether a response arrives or the wait times out and whatever the
    status of the response: the registry it leaves holds nothing under the
    identifier of the request, no mutex is held, and one channel was
    made. *)
Theorem send_leaves_no_waiter (decodeErrors : Response -> error) (request : Request)
    (e : send_in) (w : world) (c : Conn) :
  idle (mgr w) = true →
  ws (mgr w) = Some c →
  write_result e = None →
  let r := send decodeErrors request e w in
  (∃ result, r.1 = Returned result)
  ∧ responsesChanRegistry (mgr r.2) !! RequestID request = None
  ∧ idle (mgr r.2) = true
  ∧ nextChan r.2 = S (nextChan w).
Proof.
  intros Hidle Hws Hwrite r. subst r.
  rewrite (send_written decodeErrors request e w c) by assumption.
  cbn [fst snd mgr nextChan]. split; [eauto |].
  destruct w as [[] ? ? ?]; cbn in *. split; [apply lookup_delete_eq |]. split; [exact Hidle | reflexivity].
Qed.

Lemma send_leaves_no_waiter_witness :
  let r := send Sample.decode Sample.request (Sample.answered Second 404) Sample.w1 in
  (∃ result, r.1 = Returned result)
  ∧ responsesChanRegistry (mgr r.2) !! "r1" = None
  ∧ idle (mgr r.2) = true
  ∧ nextChan r.2 = 2%nat.
Proof.
  apply (send_leaves_no_waiter Sample.decode Sample.request (Sample.answered Second 404)
           Sample.w1 dialed); reflexivity.
Defined.

(** X8.  A response that reaches the waiting caller in time is handed back
    as the result exactly when its status is between 200 and 300, both
    included; with any other status [send] returns no response and the error
    that [decodeErrors] makes of the frame. *)
Theorem send_result_by_status (decodeErrors : Response -> error) (request : Request)
    (e : send_in) (w : world) (c : Conn) (response : Response) :
  idle (mgr w) = true →
  ws (mgr w) = Some c →
  write_result e = None →
  select_response (30 * Second) (arrival e) (tie_timeout e) = Some response →
  (200 ≤ StatusCode response ≤ 300 →
     (send decodeErrors request e w).1 = Returned (Some response, None))
  ∧ (¬ (200 ≤ StatusCode response ≤ 300) →
       (send decodeErrors request e w).1 = Returned (None, Some (decodeErrors response))).
Proof.
  intros Hidle Hws Hwrite Hsel.
  rewrite (send_written decodeErrors request e w c) by assumption.
  cbn [fst]. rewrite Hsel. unfold verdict.
  destruct (Z.ltb_spec (StatusCode response) 200), (Z.ltb_spec 300 (StatusCode response));
    cbn; split; intros; (reflexivity || lia).
Qed.

Lemma send_result_by_status_witness :
  (send Sample.decode Sample.request (Sample.answered Second 404) Sample.w0).1 =
    Returned (None, Some (Sample.decode (Sample.response 404))).
Proof.
  apply (proj2 (send_result_by_status Sample.decode Sample.request
                  (Sample.answered Second 404) Sample.w0 dialed (Sample.response 404)
                  eq_refl eq_refl eq_refl eq_refl)).
  cbn. lia.
Defined.

(** ** Connection supervisor: the results of [connect] *)

Section SupervisorResults.

Variable decodeErrors : Response -> error.

(** [connect] between calls. *)
Lemma connect_run (e : connect_in) (w : world) :
  idle (mgr w) = true →
  ∃ result,
    connect decodeErrors e w =
      (Returned result,
       {| mgr := connect_mgr e (mgr w);
          sub := sub w;
          nextChan := nextChan w;
          events := events w ++ connect_trace e (api_url (mgr w)) |})
    ∧ (result = None ↔ connects e = true)
    ∧ match config_result e, dial_result e, handshake e with
      | Some err, _, _ => result = Some err
      | None, Some err, _ => result = Some (ErrCannotCommunicate (Error err))
      | None, None, inr err => result = Some (ErrCannotCommunicate (Error err))
      | None, None, inl response =>
          StatusCode response ≠ StatusOK → result = Some (decodeErrors response)
      end.
Proof.
  intros Hidle. open_world w. destruct e as [cfg dial hs].
  unfold connect, connects, connect_mgr, connect_trace, api_url; cbn.
  destruct cfg as [err |]; run.
  { eexists. split; [reflexivity |]. split; [| reflexivity]. split; discriminate. }
  destruct dial as [err |]; run.
  { eexists. split; [reflexivity |]. split; [| reflexivity]. split; discriminate. }
  destruct hs as [response | err]; run.
  - destruct (bool_decide_reflect (StatusCode response ≠ StatusOK)) as [Hne | Heq]; run.
    + eexists. split; [reflexivity |]. split; [| auto].
      rewrite bool_decide_eq_true. split; [discriminate | intros; contradiction].
    + apply dec_stable in Heq.
      eexists. split; [reflexivity |]. split; [| intros; contradiction].
      rewrite bool_decide_eq_true. tauto.
  - eexists. split; [reflexivity |]. split; [| reflexivity]. split; discriminate.
Qed.

(** X9.  Between calls, [connect] returns nil exactly when the address is
    accepted, the dial succeeds and the handshake frame is read with status
    200 (a status 201 is refused); the manipulator then holds the connection
    just dialed, an empty registry and no mutex. *)
Theorem connect_succeeds_iff (e : connect_in) (w : world) :
  idle (mgr w) = true →
  let r := connect decodeErrors e w in
  (r.1 = Returned None
   ↔ config_result e = None ∧ dial_result e = None
     ∧ ∃ response, handshake e = inl response ∧ StatusCode response = 200)
  ∧ (r.1 = Returned None →
       ws (mgr r.2) = Some dialed
       ∧ responsesChanRegistry (mgr r.2) = ∅
       ∧ idle (mgr r.2) = true
       ∧ running (mgr r.2) = running (mgr w)).
Proof.
  intros Hidle r. subst r.
  destruct (connect_run e w Hidle) as (result & -> & Hiff & _). cbn [fst snd mgr].
  assert (Returned result = Returned (None : option error) ↔ connects e = true) as Hret.
  { rewrite <- Hiff. split; [intros [=]; assumption | intros ->; reflexivity]. }
  split.
  - rewrite Hret. unfold connects. destruct e as [[?|] [?|] [response | ?]]; cbn;
      try (split; [discriminate | intros (? & ? & ? & ? & ?); discriminate]).
    rewrite bool_decide_eq_true. unfold StatusOK. split.
    + intros Hok. eauto.
    + intros (_ & _ & r' & [= <-] & Hok). exact Hok.
  - rewrite Hret. unfold connects, connect_mgr.
    destruct (config_result e); [discriminate |].
    destruct (dial_result e); [discriminate |]. cbn. intros _.
    clear -Hidle. open_world w. repeat split.
Qed.

End SupervisorResults.

Lemma connect_succeeds_iff_witness :
  (connect Sample.decode Sample.accepted Sample.w1).1 = Returned None
  ∧ ws (mgr (connect Sample.decode Sample.accepted Sample.w1).2) = Some dialed.
Proof.
  destruct (connect_succeeds_iff Sample.decode Sample.accepted Sample.w1 eq_refl) as [Hiff Hthen].
  assert ((connect Sample.decode Sample.accepted Sample.w1).1 = Returned None) as Hok.
  { apply Hiff. split; [reflexivity |]. split; [reflexivity |].
    exists (Sample.response 200). split; reflexivity. }
  split; [exact Hok | apply (Hthen Hok)].
Defined.

Section SupervisorFailures.

Variable decodeErrors : Response -> error.

(** X10.  The errors of [connect], between calls.  An address that
    [websocket.NewConfig] refuses is returned as it is and the socket of the
    manipulator stays the one from before; a dial that fails gives
    [CannotCommunicate] and leaves the manipulator without a socket; a
    handshake that cannot be read gives [CannotCommunicate], and a handshake
    with a status other than 200 gives the error decoded from the frame,
    both with the socket just dialed left in place, open.  In every case the
    registry is empty afterwards. *)
Theorem connect_errors (e : connect_in) (w : world) :
  idle (mgr w) = true →
  let r := connect decodeErrors e w in
  responsesChanRegistry (mgr r.2) = ∅
  ∧ (∀ err, config_result e = Some err →
       r.1 = Returned (Some err) ∧ ws (mgr r.2) = ws (mgr w)
       ∧ filter is_dial (since w r.2) = [])
  ∧ (∀ err, config_result e = None → dial_result e = Some err →
       r.1 = Returned (Some (ErrCannotCommunicate (Error err))) ∧ ws (mgr r.2) = None)
  ∧ (∀ err, config_result e = None → dial_result e = None → handshake e = inr err →
       r.1 = Returned (Some (ErrCannotCommunicate (Error err)))
       ∧ ws (mgr r.2) = Some dialed)
  ∧ (∀ response, config_result e = None → dial_result e = None →
       handshake e = inl response → StatusCode response ≠ 200 →
       r.1 = Returned (Some (decodeErrors response)) ∧ ws (mgr r.2) = Some dialed).
Proof.
  intros Hidle r. subst r.
  destruct (connect_run decodeErrors e w Hidle) as (result & -> & _ & Hres).
  cbn [fst snd mgr]. rewrite (since_app w _ (connect_trace e (api_url (mgr w)))) by reflexivity.
  unfold connect_mgr, connect_trace.
  split; [destruct (succeeded (config_result e)); destruct (mgr w); reflexivity |].
  split; [| split; [| split]].
  - intros err Hcfg. rewrite Hcfg in *. cbn. split; [congruence |].
    split; [destruct (mgr w); reflexivity | reflexivity].
  - intros err Hcfg Hdial. rewrite Hcfg, Hdial in *. cbn.
    split; [congruence | destruct (mgr w); reflexivity].
  - intros err Hcfg Hdial Hhs. rewrite Hcfg, Hdial, Hhs in *. cbn.
    split; [congruence | destruct (mgr w); reflexivity].
  - intros response Hcfg Hdial Hhs Hstatus. rewrite Hcfg, Hdial, Hhs in *. cbn.
    split; [rewrite Hres by exact Hstatus; reflexivity | destruct (mgr w); reflexivity].
Qed.

(** X11.  While the supervisor fails to dial, requests fail at once: after a
    [connect] whose dial failed, [send] returns [CannotCommunicate] with the
    text [Websocket not initialized], writes nothing and registers
    nothing. *)
Theorem send_after_failed_dial (e : connect_in) (err : error) (request : Request)
    (se : send_in) (w : world) :
  idle (mgr w) = true →
  config_result e = None →
  dial_result e = Some err →
  let w1 := (connect decodeErrors e w).2 in
  send decodeErrors request se w1 =
    (Returned (None, Some (ErrCannotCommunicate "Websocket not initialized")), w1).
Proof.
  intros Hidle Hcfg Hdial w1. subst w1.
  destruct (connect_run decodeErrors e w Hidle) as (result & -> & _).
  cbn [snd]. unfold connect_mgr. rewrite Hcfg, Hdial. cbn [succeeded].
  unfold send. destruct (mgr w); reflexivity.
Qed.

Lemma connect_mgr_idle (e : connect_in) (m : websocketManipulator) :
  idle (connect_mgr e m) = idle m ∧ running (connect_mgr e m) = running m.
Proof. unfold connect_mgr. destruct (succeeded (config_result e)), m; split; reflexivity. Qed.

(** X12.  The reconnection loop of [listen] calls [connect] until it
    succeeds and waits 5 seconds after each failure: when the first attempts
    fail and the next one succeeds, the loop ends there, having slept once
    per failed attempt, and leaves the manipulator connected, with an empty
    registry, no mutex held and [running] as before; as long as every
    attempt fails the loop goes on. *)
Theorem reconnect_retries_until_connected (pre post : list connect_in) (e : connect_in)
    (w : world) :
  idle (mgr w) = true →
  Forall (fun e => connects e = false) pre →
  (connects e = true →
     let r := reconnect decodeErrors (pre ++ e :: post) w in
     r.1 = Returned true
     ∧ ws (mgr r.2) = Some dialed
     ∧ responsesChanRegistry (mgr r.2) = ∅
     ∧ idle (mgr r.2) = true
     ∧ running (mgr r.2) = running (mgr w)
     ∧ filter is_sleep (since w r.2) = replicate (length pre) (EvSleep (5 * Second)))
  ∧ (let r := reconnect decodeErrors pre w in
     r.1 = Returned false
     ∧ filter is_sleep (since w r.2) = replicate (length pre) (EvSleep (5 * Second))).
Proof.
  intros Hidle Hpre.
  assert (∀ es w, idle (mgr w) = true →
            ∃ tr, events (reconnect decodeErrors es w).2 = events w ++ tr) as Hgrow.
  { intros es w0 _. destruct (adds_reconnect decodeErrors es w0) as (tr & E & _). eauto. }
  split.
  - intros He. revert w Hidle.
    induction Hpre as [| e0 pre He0 Hpre IH]; intros w Hidle r; subst r; cbn [app reconnect].
    + unfold mbind, M_bind.
      destruct (connect_run decodeErrors e w Hidle) as (result & -> & Hiff & _).
      apply Hiff in He as ->. run.
      rewrite (since_app w _ (connect_trace e (api_url (mgr w))
                              ++ [EvLog "info" "Websocket connection restored."]))
        by (rewrite <- ?app_assoc; reflexivity).
      destruct (connect_mgr_idle e (mgr w)) as [Hi Hr].
      assert (connects e = true) as He by (apply Hiff; reflexivity).
      unfold connects in He. apply andb_true_iff in He as [He _].
      apply andb_true_iff in He as [Hcfg Hdial].
      split; [reflexivity |].
      split; [unfold connect_mgr; rewrite Hcfg, Hdial; destruct (mgr w); reflexivity |].
      split; [unfold connect_mgr; rewrite Hcfg; destruct (mgr w); reflexivity |].
      split; [congruence |]. split; [exact Hr |].
      unfold connect_trace. rewrite Hcfg, Hdial. reflexivity.
    + unfold mbind, M_bind.
      destruct (connect_run decodeErrors e0 w Hidle) as (result & -> & Hiff & _).
      destruct result as [err |]; [| rewrite (proj1 Hiff eq_refl) in He0; discriminate].
      run.
      match goal with
      | |- context [reconnect decodeErrors (pre ++ e :: post) ?w1] =>
          assert (idle (mgr w1) = true) as Hidle1
            by (cbn; rewrite (proj1 (connect_mgr_idle e0 (mgr w))); exact Hidle);
          destruct (IH w1 Hidle1) as (H1 & H2 & H3 & H4 & H5 & H6);
          destruct (Hgrow (pre ++ e :: post) w1 Hidle1) as (tr & E)
      end.
      split; [exact H1 |]. split; [exact H2 |]. split; [exact H3 |]. split; [exact H4 |].
      split; [rewrite H5; cbn; apply connect_mgr_idle |].
      rewrite (since_app _ _ tr E) in H6.
      erewrite since_app
        by (rewrite E; cbn [events]; rewrite <- ?app_assoc; reflexivity).
      rewrite !filter_app, H6. cbn [length replicate].
      unfold connect_trace.
      destruct (succeeded (config_result e0)), (succeeded (dial_result e0)); reflexivity.
  - revert w Hidle.
    induction Hpre as [| e0 pre He0 Hpre IH]; intros w Hidle r; subst r; cbn [reconnect].
    + split; [reflexivity |]. unfold since. cbn. rewrite drop_all. reflexivity.
    + unfold mbind, M_bind.
      destruct (connect_run decodeErrors e0 w Hidle) as (result & -> & Hiff & _).
      destruct result as [err |]; [| rewrite (proj1 Hiff eq_refl) in He0; discriminate].
      run.
      match goal with
      | |- context [reconnect decodeErrors pre ?w1] =>
          assert (idle (mgr w1) = true) as Hidle1
            by (cbn; rewrite (proj1 (connect_mgr_idle e0 (mgr w))); exact Hidle);
          destruct (IH w1 Hidle1) as (H1 & H6);
          destruct (Hgrow pre w1 Hidle1) as (tr & E)
      end.
      split; [exact H1 |].
      rewrite (since_app _ _ tr E) in H6.
      erewrite since_app
        by (rewrite E; cbn [events]; rewrite <- ?app_assoc; reflexivity).
      rewrite !filter_app, H6. cbn [length replicate].
      unfold connect_trace.
      destruct (succeeded (config_result e0)), (succeeded (dial_result e0)); reflexivity.
Qed.

End SupervisorFailures.

Lemma connect_errors_witness :
  (connect Sample.decode Sample.refused Sample.w1).1 =
    Returned (Some (ErrCannotCommunicate "connection refused"))
  ∧ ws (mgr (connect Sample.decode Sample.refused Sample.w1).2) = None.
Proof.
  apply (proj1 (proj2 (proj2 (connect_errors Sample.decode Sample.refused Sample.w1 eq_refl)))
           (ErrExternal "connection refused")); reflexivity.
Defined.

Lemma send_after_failed_dial_witness :
  let w1 := (connect Sample.decode Sample.refused Sample.w1).2 in
  send Sample.decode Sample.request Sample.unanswered w1 =
    (Returned (None, Some (ErrCannotCommunicate "Websocket not initialized")), w1).
Proof.
  apply (send_after_failed_dial Sample.decode Sample.refused (ErrExternal "connection refused")
           Sample.request Sample.unanswered Sample.w1); reflexivity.
Defined.

Lemma reconnect_retries_until_connected_witness :
  let r := reconnect Sample.decode [Sample.refused; Sample.refused; Sample.accepted] Sample.w1 in
  r.1 = Returned true
  ∧ ws (mgr r.2) = Some dialed
  ∧ responsesChanRegistry (mgr r.2) = ∅
  ∧ idle (mgr r.2) = true
  ∧ running (mgr r.2) = running (mgr Sample.w1)
  ∧ filter is_sleep (since Sample.w1 r.2) = [EvSleep (5 * Second); EvSleep (5 * Second)].
Proof.
  apply (proj1 (reconnect_retries_until_connected Sample.decode
                  [Sample.refused; Sample.refused] [] Sample.accepted Sample.w1 eq_refl
                  ltac:(repeat constructor))).
  reflexivity.
Defined.

(** ** Addresses *)

Lemma strip_prefix_app (p s : string) : strip_prefix p (p +:+ s) = Some s.
Proof.
  induction p as [| a p IH]; [reflexivity |].
  change (String a p +:+ s) with (String a (p +:+ s)). cbn [strip_prefix].
  rewrite Ascii.eqb_refl. exact IH.
Qed.

Lemma replace_first_unfold (old new s : string) :
  replace_first old new s =
  match strip_prefix old s with
  | Some rest => new +:+ rest
  | None =>
      match s with
      | EmptyString => EmptyString
      | String c s' => String c (replace_first old new s')
      end
  end.
Proof. destruct s; reflexivity. Qed.

Lemma replace_first_prefix (old new s : string) :
  replace_first old new (old +:+ s) = new +:+ s.
Proof. rewrite replace_first_unfold, strip_prefix_app. reflexivity. Qed.

Lemma replace_first_absent (old new s : string) :
  occurs old s = false → replace_first old new s = s.
Proof.
  induction s as [| c s IH]; cbn.
  - destruct (strip_prefix old ""); [discriminate | reflexivity].
  - destruct (strip_prefix old (String c s)); [discriminate |].
    intros H. rewrite IH by exact H. reflexivity.
Qed.

(** X13.  The address dialed is the base address with its scheme rewritten,
    [http://] to [ws://] and [https://] to [wss://], followed by the
    endpoint, the token, the namespace and, for all namespaces, [&mode=all];
    this holds when the other scheme does not occur further on in the base
    address.  A base address in which neither scheme occurs is kept as it
    is. *)
Theorem ws_url_rewrites_scheme (rest endpoint token ns : string) (all : bool) :
  let finish := fun url : string =>
    let url := url +:+ endpoint +:+ token +:+ "&namespace=" +:+ ns in
    if all then url +:+ "&mode=all" else url in
  (occurs "https://" rest = false →
     ws_url ("http://" +:+ rest) endpoint token ns all = finish ("ws://" +:+ rest))
  ∧ (occurs "http://" rest = false →
       ws_url ("https://" +:+ rest) endpoint token ns all = finish ("wss://" +:+ rest))
  ∧ (occurs "http://" rest = false → occurs "https://" rest = false →
       ws_url rest endpoint token ns all = finish rest).
Proof.
  intros finish. subst finish. unfold ws_url. split; [| split].
  - intros Habsent. rewrite replace_first_prefix.
    rewrite (replace_first_absent "https://" "wss://" ("ws://" +:+ rest)) by exact Habsent.
    reflexivity.
  - intros Habsent.
    rewrite (replace_first_absent "http://" "ws://" ("https://" +:+ rest)) by exact Habsent.
    rewrite replace_first_prefix. reflexivity.
  - intros H1 H2. rewrite (replace_first_absent "http://" "ws://" rest) by exact H1.
    rewrite (replace_first_absent "https://" "wss://" rest) by exact H2. reflexivity.
Qed.

Lemma ws_url_rewrites_scheme_witness :
  ws_url "https://api.example.com" "/wsapi?token=" "T0" "/ns" true
  = "wss://api.example.com/wsapi?token=T0&namespace=/ns&mode=all".
Proof.
  apply (proj1 (proj2 (ws_url_rewrites_scheme "api.example.com" "/wsapi?token=" "T0" "/ns" true))).
  reflexivity.
Defined.

(** ** Connection supervisor: [listen] and the stop closure *)

Section ListenAndStop.

Variable decodeErrors : Response -> error.

(** X14.  A frame that [listen] reads for an identifier that is registered
    is sent to the channel registered under it, here the channel that
    [registerResponseChannel] has just returned; [listen] itself leaves the
    registry as it is (the waiter removes its entry). *)
Theorem listen_delivers_to_registered (rid : string) (response : Response) (w : world)
    (c : Conn) :
  idle (mgr w) = true →
  ws (mgr w) = Some c →
  RequestID (RespRequest response) = rid →
  let w1 := (registerResponseChannel rid w).2 in
  let r := listen decodeErrors [{| frame := RecvOk response; attempts := [] |}] w1 in
  since w1 r.2 = [EvWsReceive ApiSocket; EvChanSend (nextChan w) response]
  ∧ mgr r.2 = mgr w1.
Proof.
  intros Hidle Hws Hrid w1 r. subst r w1.
  rewrite registerResponseChannel_run by (clear -Hidle; open_world w; reflexivity).
  split; [apply since_app |]; open_world w; subst; cbn [listen]; run;
    rewrite lookup_insert_eq; run; reflexivity.
Qed.

(** X15.  After the stop closure has run on a connected manipulator, the
    next read error makes [listen] return: it does not clear the registry,
    does not dial, and reads nothing more, whatever the network would have
    answered. *)
Theorem listen_exits_after_stop (err : error) (attempts : list connect_in)
    (rest : list listen_in) (w : world) (c : Conn) :
  idle (mgr w) = true →
  ws (mgr w) = Some c →
  IsClientConn c = true →
  let w1 := (stop w).2 in
  let r := listen decodeErrors ({| frame := RecvErr err; attempts := attempts |} :: rest) w1 in
  r.1 = Returned Exited
  ∧ since w1 r.2 = [EvWsReceive ApiSocket]
  ∧ mgr r.2 = mgr w1.
Proof.
  intros Hidle Hws Hclient w1 r. subst r w1.
  split; [| split; [apply since_app |]]; open_world w; subst;
    (destruct c as [[] cl]; [| discriminate]);
    unfold stop; cbn [listen]; run; reflexivity.
Qed.

(** X16.  The stop closure does nothing when the manipulator has no socket
    (the last dial failed): [running] stays as it is, and a later attempt of
    the reconnection loop that succeeds leaves the manipulator running and
    connected. *)
Theorem stop_without_socket_is_ignored (e : connect_in) (w : world) :
  idle (mgr w) = true →
  ws (mgr w) = None →
  stop w = (Returned tt, w)
  ∧ (connects e = true →
       let r := reconnect decodeErrors [e] (stop w).2 in
       r.1 = Returned true
       ∧ running (mgr r.2) = running (mgr w)
       ∧ ws (mgr r.2) = Some dialed).
Proof.
  intros Hidle Hws.
  assert (stop w = (Returned tt, w)) as Hstop.
  { clear -Hidle Hws. open_world w. subst. reflexivity. }
  split; [exact Hstop |]. rewrite Hstop. cbn [snd]. intros He. cbv zeta.
  cbn [reconnect]. unfold mbind, M_bind.
  destruct (connect_run decodeErrors e w Hidle) as (result & -> & Hiff & _).
  apply Hiff in He as Hres. subst result. run.
  unfold connects in He. apply andb_true_iff in He as [He _].
  apply andb_true_iff in He as [Hcfg Hdial].
  split; [reflexivity |]. unfold connect_mgr. rewrite Hcfg, Hdial.
  destruct (mgr w); split; reflexivity.
Qed.

End ListenAndStop.

Lemma listen_delivers_to_registered_witness :
  let w1 := (registerResponseChannel "r1" Sample.w0).2 in
  let r := listen Sample.decode
             [{| frame := RecvOk (Sample.response 200); attempts := [] |}] w1 in
  since w1 r.2 = [EvWsReceive ApiSocket; EvChanSend 0%nat (Sample.response 200)]
  ∧ mgr r.2 = mgr w1.
Proof.
  apply (listen_delivers_to_registered Sample.decode "r1" (Sample.response 200)
           Sample.w0 dialed); reflexivity.
Defined.

Lemma listen_exits_after_stop_witness :
  let w1 := (stop Sample.w0).2 in
  let r := listen Sample.decode
             ({| frame := RecvErr (ErrExternal "EOF"); attempts := [Sample.accepted] |} :: [])
             w1 in
  r.1 = Returned Exited
  ∧ since w1 r.2 = [EvWsReceive ApiSocket]
  ∧ mgr r.2 = mgr w1.
Proof.
  apply (listen_exits_after_stop Sample.decode (ErrExternal "EOF") [Sample.accepted] []
           Sample.w0 dialed); reflexivity.
Defined.

Lemma stop_without_socket_is_ignored_witness :
  let w := (connect Sample.decode Sample.refused Sample.w0).2 in
  stop w = (Returned tt, w)
  ∧ running (mgr w) = true.
Proof.
  intros w. split; [| reflexivity].
  apply (stop_without_socket_is_ignored Sample.decode Sample.accepted w); reflexivity.
Defined.

(** ** Subscription worker: failures, unsubscribing, nil callbacks *)

Ltac open_subscription w :=
  let m := fresh "m" in
  let wsc := fresh "wsc" in
  destruct w as [m [wsc [] ? ?] ? ?]; cbn in *; try discriminate.

(** X17.  A read that fails on a subscription that is not stopped is
    reported to the handler once, as [(nil, err)]; the inner loop is left at
    once (later reads of that socket do not happen), the socket is not
    closed, and the need of a call of the recovery handler is noted. *)
Theorem receive_failure_reported_once (identities : option (list Identity)) (err : error)
    (fs : list receive_in) (w : world) :
  stopped (sub w) = false →
  let r := receive_events identities true (read_failed err :: fs) w in
  r.1 = Returned true
  ∧ since w r.2 = [EvWsReceive EventSocket; EvHandler None (Some err)]
  ∧ sub r.2 = set_needsReconnectionHandlerCall true (sub w)
  ∧ mgr r.2 = mgr w.
Proof.
  intros Hlive r. subst r.
  split; [| split; [apply since_app |]]; open_subscription w;
    cbn [receive_events read_failed unsubscribed message]; unfold call_handler; run;
    try reflexivity.
  split; reflexivity.
Qed.

Lemma receive_failure_reported_once_witness :
  let r := receive_events None true
             [read_failed (ErrExternal "EOF"); read_of Sample.thing_created] Sample.w0 in
  r.1 = Returned true
  ∧ since Sample.w0 r.2 = [EvWsReceive EventSocket; EvHandler None (Some (ErrExternal "EOF"))]
  ∧ sub r.2 = set_needsReconnectionHandlerCall true (sub Sample.w0)
  ∧ mgr r.2 = mgr Sample.w0.
Proof.
  apply (receive_failure_reported_once None (ErrExternal "EOF")
           [read_of Sample.thing_created] Sample.w0).
  reflexivity.
Defined.

(** X18.  Unsubscribing ends the subscription without another callback.  A
    read during which the caller runs the closure ends the inner loop with
    no call of the handler, whether the read returned an event or an error,
    and without noting a need for the recovery handler; and a worker that
    finds the subscription stopped dials no more and calls no handler: when
    the address is well formed it returns. *)
Theorem unsubscribe_ends_subscription (identities : option (list Identity))
    (allNamespaces handler recoHandler : bool) (w : world) :
  (∀ msg fs,
     let r := receive_events identities handler
                ({| unsubscribed := true; message := msg |} :: fs) w in
     r.1 = Returned true
     ∧ filter is_handler_call (since w r.2) = []
     ∧ stopped (sub r.2) = true
     ∧ needsReconnectionHandlerCall (sub r.2) = needsReconnectionHandlerCall (sub w))
  ∧ (stopped (sub w) = true →
       ∀ ds,
         let r := subscribe_worker identities allNamespaces handler recoHandler ds w in
         filter is_dial (since w r.2) = []
         ∧ filter is_handler_call (since w r.2) = []
         ∧ (∀ d ds', ds = d :: ds' → renewLock (mgr w) = false → sub_config d = None →
              r.1 = Returned Exited)).
Proof.
  split.
  - intros msg fs r. subst r.
    destruct w as [m [[[[] cl] |] stp np nr] n ev];
      cbn [receive_events unsubscribed message]; unfold disconnectFunc, since; run;
      rewrite drop_app_length; repeat split.
  - intros Hstopped ds r. subst r.
    destruct ds as [| [cfg ub dl fs] ds'].
    { unfold since. cbn. rewrite drop_all. repeat split. intros; discriminate. }
    destruct w as [[? ? [] ? ? ? ? ? ? ? ? ? ?] [wsc stp np nr] n ev]; cbn in Hstopped; subst;
      cbn [subscribe_worker sub_config unsubscribed_before]; unfold since; run.
    { rewrite drop_all. repeat split. intros; discriminate. }
    destruct cfg as [err |]; run.
    { rewrite drop_app_length. repeat split. intros ? ? [= <- <-] _ [=]. }
    destruct ub; unfold disconnectFunc; run.
    + destruct wsc as [[[] cl] |]; run; rewrite drop_app_length; repeat split.
    + rewrite drop_app_length. repeat split.
Qed.

Lemma unsubscribe_ends_subscription_witness :
  let w1 := (receive_events None true
               [{| unsubscribed := true; message := inl Sample.thing_created |}] Sample.w0).2 in
  stopped (sub w1) = true
  ∧ (subscribe_worker None false true true [Sample.dial_then []] w1).1 = Returned Exited.
Proof.
  intros w1. split; [reflexivity |].
  destruct (proj2 (unsubscribe_ends_subscription None false true true w1) eq_refl
              [Sample.dial_then []]) as (_ & _ & Hexits).
  apply (Hexits (Sample.dial_then []) []); reflexivity.
Defined.

(** X19.  Calling the closure a second time is safe: both calls return,
    the subscription stays stopped with its socket closed, and nothing else
    changes. *)
Theorem disconnectFunc_twice (w : world) :
  let w1 := (disconnectFunc w).2 in
  let w2 := (disconnectFunc w1).2 in
  (disconnectFunc w).1 = Returned tt
  ∧ (disconnectFunc w1).1 = Returned tt
  ∧ stopped (sub w1) = true
  ∧ sub w2 = sub w1
  ∧ mgr w2 = mgr w
  ∧ (∀ c, sub_ws (sub w) = Some c → IsClientConn c = true →
       sub_ws (sub w2) = Some {| request_nil := true; closed := true |}).
Proof.
  destruct w as [m [[[[] cl] |] stp np nr] n ev]; unfold disconnectFunc; run;
    repeat split; intros; simplify_eq; reflexivity.
Qed.

Lemma disconnectFunc_twice_witness :
  let w := {| mgr := Sample.manipulator;
              sub := set_sub_ws (Some dialed) new_subscription;
              nextChan := 0%nat; events := [] |} in
  sub_ws (sub (disconnectFunc (disconnectFunc w).2).2)
  = Some {| request_nil := true; closed := true |}.
Proof.
  intros w.
  destruct (disconnectFunc_twice w) as (_ & _ & _ & _ & _ & Hclosed).
  apply (Hclosed dialed); reflexivity.
Defined.

Section NilCallbacks.

Variable identities : option (list Identity).
Variable allNamespaces : bool.
Variable handler : bool.

Lemma no_recovery_nil : no_recovery [].
Proof. apply not_elem_of_nil. Qed.

Lemma no_recovery_app (t1 t2 : list event) :
  no_recovery t1 → no_recovery t2 → no_recovery (t1 ++ t2).
Proof. unfold no_recovery. rewrite elem_of_app. tauto. Qed.

Ltac quiet_recovery :=
  first [ exact no_recovery_nil
        | exact no_recovery_app
        | unfold no_recovery; rewrite list_elem_of_singleton; discriminate ].

Lemma quiet_disconnectFunc : adds no_recovery disconnectFunc.
Proof.
  unfold disconnectFunc.
  apply adds_bind; [quiet_recovery | apply adds_modify_sub; quiet_recovery | intros _].
  apply adds_bind; [quiet_recovery | apply adds_get_sub; quiet_recovery | intros s].
  destruct (sub_ws s) as [c |]; [| apply adds_ret; quiet_recovery].
  destruct (IsClientConn c); [| apply adds_ret; quiet_recovery].
  apply adds_bind; [quiet_recovery | apply adds_emit; quiet_recovery | intros _].
  apply adds_modify_sub; quiet_recovery.
Qed.

Lemma quiet_call_handler (e : option Event) (err : option error) :
  adds no_recovery (call_handler handler e err).
Proof.
  unfold call_handler. destruct handler;
    [apply adds_emit; quiet_recovery | apply adds_panic; quiet_recovery].
Qed.

Lemma quiet_receive_events (fs : list receive_in) :
  adds no_recovery (receive_events identities handler fs).
Proof.
  induction fs as [| f fs IH]; cbn [receive_events]; [apply adds_ret; quiet_recovery |].
  apply adds_bind; [quiet_recovery | apply adds_emit; quiet_recovery | intros _].
  apply adds_bind; [quiet_recovery | | intros _].
  { destruct (unsubscribed f); [apply quiet_disconnectFunc | apply adds_ret; quiet_recovery]. }
  apply adds_bind; [quiet_recovery | apply adds_get_sub; quiet_recovery | intros s].
  destruct (stopped s); [apply adds_ret; quiet_recovery |].
  destruct (message f) as [event | err].
  - apply adds_bind; [quiet_recovery | | intros _; exact IH].
    destruct (_ || _); [apply quiet_call_handler | apply adds_ret; quiet_recovery].
  - apply adds_bind; [quiet_recovery | apply quiet_call_handler | intros _].
    apply adds_bind; [quiet_recovery | apply adds_modify_sub; quiet_recovery | intros _].
    apply adds_ret; quiet_recovery.
Qed.

Lemma quiet_subscribe_worker (ds : list dial_in) :
  adds no_recovery (subscribe_worker identities allNamespaces handler false ds).
Proof.
  induction ds as [| d ds IH]; cbn [subscribe_worker]; [apply adds_ret; quiet_recovery |].
  apply adds_bind; [quiet_recovery | apply adds_get; quiet_recovery | intros m].
  apply adds_bind; [quiet_recovery | apply adds_currentPassword; quiet_recovery | intros token].
  apply adds_bind; [quiet_recovery | apply adds_emit; quiet_recovery | intros _].
  destruct (sub_config d); [apply adds_panic; quiet_recovery |].
  apply adds_bind; [quiet_recovery | | intros _].
  { destruct (unsubscribed_before d);
      [apply quiet_disconnectFunc | apply adds_ret; quiet_recovery]. }
  apply adds_bind; [quiet_recovery | apply adds_get_sub; quiet_recovery | intros s].
  destruct (stopped s); [apply adds_ret; quiet_recovery |].
  apply adds_bind; [quiet_recovery | apply adds_emit; quiet_recovery | intros _].
  apply adds_bind; [quiet_recovery | apply adds_modify_sub; quiet_recovery | intros _].
  destruct (sub_dial d).
  - apply adds_bind; [quiet_recovery | apply adds_emit; quiet_recovery | intros _].
    apply adds_bind; [quiet_recovery | apply adds_emit; quiet_recovery | intros _].
    exact IH.
  - apply adds_bind; [quiet_recovery | apply adds_get_sub; quiet_recovery | intros s1].
    apply adds_bind; [quiet_recovery | | intros _].
    { destruct (needsPublishDisconnectFunc s1);
        [apply adds_emit; quiet_recovery | apply adds_ret; quiet_recovery]. }
    apply adds_bind; [quiet_recovery | apply adds_modify_sub; quiet_recovery | intros _].
    apply adds_bind; [quiet_recovery | apply adds_get_sub; quiet_recovery | intros s2].
    apply adds_bind; [quiet_recovery | | intros _].
    { rewrite andb_false_r. apply adds_ret; quiet_recovery. }
    apply adds_bind; [quiet_recovery | apply quiet_receive_events | intros left].
    destruct left; [exact IH | apply adds_ret; quiet_recovery].
Qed.

(** X20.  Nil callbacks.  A nil recovery handler is tolerated: it is never
    called, whatever the network does.  A nil event handler is not checked:
    the first event that passes the filter on a subscription that is not
    stopped makes the worker panic on the call, before any later read. *)
Theorem nil_callbacks (ds : list dial_in) (w : world) :
  (EvRecovery ∉ since w (Subscribe identities allNamespaces handler false ds w).2)
  ∧ (∀ e fs, stopped (sub w) = false → delivers identities e = true →
       receive_events identities false (read_of e :: fs) w =
         (Panicked nil_deref,
          {| mgr := mgr w; sub := sub w; nextChan := nextChan w;
             events := events w ++ [EvWsReceive EventSocket] |})).
Proof.
  split.
  - set (w0 := {| mgr := mgr w; sub := new_subscription; nextChan := nextChan w;
                  events := events w |}).
    destruct (quiet_subscribe_worker ds w0) as (tr & E & Hq).
    assert ((Subscribe identities allNamespaces handler false ds w).2
            = (subscribe_worker identities allNamespaces handler false ds w0).2) as ->.
    { unfold Subscribe. fold w0.
      destruct (subscribe_worker identities allNamespaces handler false ds w0) as [o w'].
      cbn. destruct (needsPublishDisconnectFunc (sub w')); reflexivity. }
    rewrite (since_app w _ tr) by exact E. exact Hq.
  - intros e fs Hlive Hpass.
    cbn [receive_events read_of unsubscribed message]. unfold call_handler.
    destruct w as [m [wsc stp np nr] n ev]; cbn in Hlive; subst. run.
    rewrite relatedIdentities_delivers, Hpass. reflexivity.
Qed.

End NilCallbacks.

Lemma nil_callbacks_witness :
  receive_events None false [read_of Sample.thing_created] Sample.w0 =
    (Panicked nil_deref,
     {| mgr := mgr Sample.w0; sub := sub Sample.w0; nextChan := nextChan Sample.w0;
        events := events Sample.w0 ++ [EvWsReceive EventSocket] |}).
Proof.
  apply (proj2 (nil_callbacks None false true [] Sample.w0) Sample.thing_created []);
    reflexivity.
Defined.

(** ** The operations of the request gateway *)

Lemma new_request_run (operation : string) (identity : Identity) (rid : string) (w : world) :
  renewLock (mgr w) = false →
  new_request operation identity rid w =
    (Returned {| RequestID := rid;
                 Namespace := namespace (mgr w);
                 Operation := operation;
                 ReqIdentity := Name identity;
                 ObjectID := "";
                 Username := username (mgr w);
                 Password := password (mgr w) |}, w).
Proof. intros Hfree. destruct w as [[] ? ? ?]; cbn in *; subst. reflexivity. Qed.

Lemma idle_renewLock (m : websocketManipulator) : idle m = true → renewLock m = false.
Proof. destruct m as [? [] [] ? ? ? ? [] ? ? ? [] ?]; cbn; congruence. Qed.

Lemma send_unwritten (decodeErrors : Response -> error) (request : Request) (e : send_in)
    (w : world) (c : Conn) (err : error) :
  ws (mgr w) = Some c →
  write_result e = Some err →
  send decodeErrors request e w =
    (Returned (None, Some (ErrCannotCommunicate (Error err))),
     {| mgr := mgr w; sub := sub w; nextChan := nextChan w;
        events := events w ++ [EvWsSend (RequestID request)] |}).
Proof.
  intros Hws Hwrite. destruct w as [[] ? ? ?], e; cbn in *; subst.
  unfold send. run. reflexivity.
Qed.

Lemma select_response_late (d : delivery) (tie : bool) :
  no_delivery_within (30 * Second) d → select_response (30 * Second) d tie = None.
Proof.
  unfold select_response, no_delivery_within.
  destruct d as [| t r]; [reflexivity |]. intros Hlate.
  destruct (Z.ltb_spec t (30 * Second)); [lia |].
  destruct (Z.eqb_spec t (30 * Second)); [lia | reflexivity].
Qed.

Lemma verdict_in_range (decodeErrors : Response -> error) (response : Response) :
  200 ≤ StatusCode response ≤ 300 → verdict decodeErrors response = (Some response, None).
Proof.
  intros Hrange. unfold verdict.
  destruct (Z.ltb_spec (StatusCode response) 200), (Z.ltb_spec 300 (StatusCode response));
    cbn; (reflexivity || lia).
Qed.

Lemma verdict_out_of_range (decodeErrors : Response -> error) (response : Response) :
  ¬ (200 ≤ StatusCode response ≤ 300) →
  verdict decodeErrors response = (None, Some (decodeErrors response)).
Proof.
  intros Hrange. unfold verdict.
  destruct (Z.ltb_spec (StatusCode response) 200), (Z.ltb_spec 300 (StatusCode response));
    cbn; (reflexivity || lia).
Qed.

Section OperationResults.

Variable decodeErrors : Response -> error.
Variable Context : Type.
Variable populateRequestFromContext : Request -> Context -> Request + error.

Local Abbreviation exchange :=
  (exchange_objects decodeErrors Context populateRequestFromContext).

(** A clean exchange at the head of the loop: the loop goes on with the
    rest, one frame written, the manipulator ready as before. *)
Lemma exchange_clean_head (operation : string) (withID : bool) (context : Context)
    (object : Manipulable) (x : exchange_in) (rest : list (Manipulable * exchange_in))
    (w : world) :
  ready w → accepting populateRequestFromContext context → clean x →
  ∃ w1 tr,
    exchange operation withID context ((object, x) :: rest) w
    = exchange operation withID context rest w1
    ∧ ready w1
    ∧ events w1 = events w ++ tr
    ∧ length (filter is_send tr) = 1%nat
    ∧ namespace (mgr w1) = namespace (mgr w).
Proof.
  intros [Hidle [c Hws]] Hacc (Henc & Hwrite & (response & Hsel & Hrange) & Hdec).
  cbn [exchange_objects]. unfold mbind at 1, M_bind at 1.
  rewrite new_request_run by (apply idle_renewLock, Hidle).
  match goal with
  | |- context [populateRequestFromContext ?req context] =>
      destruct (Hacc req) as [req' ->]
  end.
  rewrite Henc. unfold mbind, M_bind.
  rewrite (send_written decodeErrors req' (wire x) w c) by assumption.
  rewrite Hsel, verdict_in_range by exact Hrange. rewrite Hdec.
  eexists. eexists. split; [reflexivity |].
  split; [| split; [reflexivity | split; [reflexivity |]]].
  - split; cbn; destruct (mgr w); cbn in *; [exact Hidle | eauto].
  - cbn. destruct (mgr w); reflexivity.
Qed.

(** Clean exchanges at the head of the loop. *)
Lemma exchange_clean_prefix (operation : string) (withID : bool) (context : Context)
    (pre rest : list (Manipulable * exchange_in)) (w : world) :
  ready w → accepting populateRequestFromContext context →
  Forall (fun ox => clean ox.2) pre →
  ∃ w1 tr,
    exchange operation withID context (pre ++ rest) w
    = exchange operation withID context rest w1
    ∧ ready w1
    ∧ events w1 = events w ++ tr
    ∧ length (filter is_send tr) = length pre.
Proof.
  intros Hready Hacc Hclean. revert w Hready.
  induction Hclean as [| [object x] pre Hx Hclean IH]; intros w Hready; cbn [app].
  - exists w, []. rewrite app_nil_r. auto.
  - destruct (exchange_clean_head operation withID context object x (pre ++ rest) w
                Hready Hacc Hx) as (w1 & tr & -> & Hready1 & E1 & Hone & _).
    destruct (IH w1 Hready1) as (w2 & tr2 & -> & Hready2 & E2 & Hcount).
    exists w2, (tr ++ tr2). split; [reflexivity |]. split; [exact Hready2 |].
    split; [rewrite E2, E1, app_assoc; reflexivity |].
    rewrite filter_app, length_app, Hone, Hcount. reflexivity.
Qed.

(** X21.  An operation on several objects ([Retrieve], [Create], [Update],
    [Delete]) whose exchanges are all clean returns nil after writing one
    frame per object; the manipulator is then between calls and connected as
    before. *)
Theorem exchange_objects_all_clean (operation : string) (withID : bool) (context : Context)
    (objects : list (Manipulable * exchange_in)) (w : world) :
  ready w →
  accepting populateRequestFromContext context →
  Forall (fun ox => clean ox.2) objects →
  let r := exchange operation withID context objects w in
  r.1 = Returned None
  ∧ ready r.2
  ∧ length (filter is_send (since w r.2)) = length objects.
Proof.
  intros Hready Hacc Hclean r. subst r.
  destruct (exchange_clean_prefix operation withID context objects [] w Hready Hacc Hclean)
    as (w1 & tr & Heq & Hready1 & E & Hcount).
  rewrite app_nil_r in Heq. rewrite Heq. cbn [exchange_objects].
  split; [reflexivity |]. split; [exact Hready1 |].
  rewrite (since_app w _ tr) by exact E. exact Hcount.
Qed.

(** The head of the loop, up to the body of the request. *)
Lemma exchange_head (operation : string) (withID : bool) (context : Context)
    (object : Manipulable) (x : exchange_in) (rest : list (Manipulable * exchange_in))
    (w : world) :
  ready w → accepting populateRequestFromContext context →
  ∃ req,
    exchange operation withID context ((object, x) :: rest) w
    = match encoded x with
      | Some err => (Returned (Some (ErrCannotMarshal (Error err))), w)
      | None =>
          (r ← send decodeErrors req (wire x);
           match r with
           | (_, Some err) => mret (Some (Passed err))
           | (None, None) => panic nil_deref
           | (Some resp, None) =>
               match decoded x with
               | Some err => mret (Some (Passed (ErrCannotUnmarshal (Error err))))
               | None => exchange operation withID context rest
               end
           end) w
      end.
Proof.
  intros [Hidle _] Hacc.
  cbn [exchange_objects]. unfold mbind at 1, M_bind at 1.
  rewrite new_request_run by (apply idle_renewLock, Hidle).
  match goal with
  | |- context [populateRequestFromContext ?req context] =>
      destruct (Hacc req) as [req' ->]
  end.
  exists req'. destruct (encoded x); reflexivity.
Qed.

Ltac count_frames E Hcount :=
  cbn [fst snd];
  erewrite since_app by (cbn; rewrite E, <- ?app_assoc; reflexivity);
  rewrite filter_app, length_app, Hcount, Nat.add_comm; reflexivity.

(** X22.  An operation on several objects stops at the first exchange that
    fails and returns its error; the objects after it are not sent.  After
    clean exchanges: a body that cannot be encoded gives [CannotMarshal]
    before anything is written for the object; a write that fails gives
    [CannotCommunicate]; no response within 30 seconds gives
    [CannotCommunicate] with the text [Request timeout]; a response with a
    status below 200 or above 300 gives the error decoded from it; and a
    response that cannot be decoded gives [CannotUnmarshal], although the
    server answered the request with success. *)
Theorem exchange_objects_stops_at_failure (operation : string) (withID : bool)
    (context : Context) (pre post : list (Manipulable * exchange_in))
    (object : Manipulable) (x : exchange_in) (w : world) :
  ready w →
  accepting populateRequestFromContext context →
  Forall (fun ox => clean ox.2) pre →
  let r := exchange operation withID context (pre ++ (object, x) :: post) w in
  let frames := length (filter is_send (since w r.2)) in
  (∀ err, encoded x = Some err →
     r.1 = Returned (Some (ErrCannotMarshal (Error err))) ∧ frames = length pre)
  ∧ (∀ err, encoded x = None → write_result (wire x) = Some err →
       r.1 = Returned (Some (Passed (ErrCannotCommunicate (Error err))))
       ∧ frames = S (length pre))
  ∧ (encoded x = None → write_result (wire x) = None →
       no_delivery_within (30 * Second) (arrival (wire x)) →
       r.1 = Returned (Some (Passed (ErrCannotCommunicate "Request timeout")))
       ∧ frames = S (length pre))
  ∧ (∀ response, encoded x = None → write_result (wire x) = None →
       select_response (30 * Second) (arrival (wire x)) (tie_timeout (wire x)) = Some response →
       ¬ (200 ≤ StatusCode response ≤ 300) →
       r.1 = Returned (Some (Passed (decodeErrors response))) ∧ frames = S (length pre))
  ∧ (∀ response err, encoded x = None → write_result (wire x) = None →
       select_response (30 * Second) (arrival (wire x)) (tie_timeout (wire x)) = Some response →
       200 ≤ StatusCode response ≤ 300 → decoded x = Some err →
       r.1 = Returned (Some (Passed (ErrCannotUnmarshal (Error err))))
       ∧ frames = S (length pre)).
Proof.
  intros Hready Hacc Hclean r frames. subst frames r.
  destruct (exchange_clean_prefix operation withID context pre ((object, x) :: post) w
              Hready Hacc Hclean) as (w1 & tr & -> & Hready1 & E & Hcount).
  destruct (exchange_head operation withID context object x post w1 Hready1 Hacc)
    as [req' ->].
  destruct Hready1 as [Hidle [c Hws]].
  split; [| split; [| split; [| split]]].
  - intros err ->. split; [reflexivity |].
    cbn [fst snd]. rewrite (since_app w _ tr) by exact E. exact Hcount.
  - intros err -> Hwrite. unfold mbind, M_bind.
    rewrite (send_unwritten decodeErrors req' (wire x) w1 c err) by assumption.
    split; [reflexivity |]. count_frames E Hcount.
  - intros -> Hwrite Hlate. unfold mbind, M_bind.
    rewrite (send_written decodeErrors req' (wire x) w1 c) by assumption.
    rewrite select_response_late by exact Hlate. split; [reflexivity |]. count_frames E Hcount.
  - intros response -> Hwrite Hsel Hrange. unfold mbind, M_bind.
    rewrite (send_written decodeErrors req' (wire x) w1 c) by assumption.
    rewrite Hsel, verdict_out_of_range by exact Hrange. split; [reflexivity |]. count_frames E Hcount.
  - intros response err -> Hwrite Hsel Hrange Hdec. unfold mbind, M_bind.
    rewrite (send_written decodeErrors req' (wire x) w1 c) by assumption.
    rewrite Hsel, verdict_in_range by exact Hrange. rewrite Hdec.
    split; [reflexivity |]. count_frames E Hcount.
Qed.

(** X23.  [Count] returns the total of the response and nil when the
    response arrives in time with a status from 200 to 300; when no response
    arrives within 30 seconds it returns 0 and [CannotCommunicate] with the
    text [Request timeout]. *)
Theorem Count_returns_total (NewContext : Context) (context : option Context)
    (identity : Identity) (x : exchange_in) (w : world) :
  ready w →
  accepting populateRequestFromContext (default NewContext context) →
  write_result (wire x) = None →
  let r := Count decodeErrors Context NewContext populateRequestFromContext context identity x w in
  (∀ response,
     select_response (30 * Second) (arrival (wire x)) (tie_timeout (wire x)) = Some response →
     200 ≤ StatusCode response ≤ 300 →
     r.1 = Returned (Total response, None))
  ∧ (no_delivery_within (30 * Second) (arrival (wire x)) →
       r.1 = Returned (0, Some (Passed (ErrCannotCommunicate "Request timeout")))).
Proof.
  intros [Hidle [c Hws]] Hacc Hwrite r. subst r. unfold Count.
  split; [intros response Hsel Hrange | intros Hlate];
    unfold mbind at 1, M_bind at 1;
    rewrite new_request_run by (apply idle_renewLock, Hidle);
    match goal with
    | |- context [populateRequestFromContext ?req ?ctx] =>
        destruct (Hacc req) as [req' ->]
    end;
    unfold mbind, M_bind;
    rewrite (send_written decodeErrors req' (wire x) w c) by assumption.
  - rewrite Hsel, verdict_in_range by exact Hrange. reflexivity.
  - rewrite select_response_late by exact Hlate. reflexivity.
Qed.

End OperationResults.

Lemma exchange_objects_all_clean_witness :
  let objects := [(OperationSample.thing "a", OperationSample.exchanged "r1");
                  (OperationSample.thing "b", OperationSample.exchanged "r2")] in
  let r := exchange_objects Sample.decode unit OperationSample.populate OperationUpdate true tt
             objects Sample.w0 in
  r.1 = Returned None ∧ ready r.2 ∧ length (filter is_send (since Sample.w0 r.2)) = 2%nat.
Proof.
  intros objects.
  apply (exchange_objects_all_clean Sample.decode unit OperationSample.populate
           OperationUpdate true tt objects Sample.w0).
  - split; [reflexivity |]. exists dialed. reflexivity.
  - intros req. exists req. reflexivity.
  - repeat constructor; try (exists (Sample.response 200); split; [reflexivity | cbn; lia]).
Defined.

Lemma exchange_objects_stops_at_failure_witness :
  let pre := [(OperationSample.thing "a", OperationSample.exchanged "r1")] in
  let post := [(OperationSample.thing "c", OperationSample.exchanged "r3")] in
  let r := exchange_objects Sample.decode unit OperationSample.populate OperationCreate false tt
             (pre ++ (OperationSample.thing "b", OperationSample.undelivered "r2") :: post)
             Sample.w0 in
  r.1 = Returned (Some (Passed (ErrCannotCommunicate "Request timeout")))
  ∧ length (filter is_send (since Sample.w0 r.2)) = 2%nat.
Proof.
  intros pre post.
  assert (ready Sample.w0) as Hready
    by (split; [reflexivity | exists dialed; reflexivity]).
  assert (accepting OperationSample.populate tt) as Hacc
    by (intros req; exists req; reflexivity).
  assert (Forall (fun ox : Manipulable * exchange_in => clean ox.2) pre) as Hclean
    by (repeat constructor; exists (Sample.response 200); split; [reflexivity | cbn; lia]).
  destruct (exchange_objects_stops_at_failure Sample.decode unit OperationSample.populate
              OperationCreate false tt pre post (OperationSample.thing "b")
              (OperationSample.undelivered "r2") Sample.w0 Hready Hacc Hclean)
    as (_ & _ & Hlate & _).
  apply Hlate; [reflexivity | reflexivity | exact I].
Defined.

Lemma Count_returns_total_witness :
  (Count Sample.decode unit tt OperationSample.populate None
     {| Name := "thing"; Category := "things" |} (OperationSample.counted "r1" 7) Sample.w0).1
  = Returned (7, None).
Proof.
  destruct (Count_returns_total Sample.decode unit OperationSample.populate tt None
              {| Name := "thing"; Category := "things" |} (OperationSample.counted "r1" 7)
              Sample.w0) as [Hcount _].
  - split; [reflexivity |]. exists dialed. reflexivity.
  - intros req. exists req. reflexivity.
  - reflexivity.
  - apply (Hcount (OperationSample.total 7)); [reflexivity | cbn; lia].
Defined.

(** ** The constructors *)

Section Constructors.

Variable decodeErrors : Response -> error.

(** The constructor, by the fate of its [connect]. *)
Lemma constructor_run (username password url namespace : string) (skipTLSVerify : bool)
    (e : connect_in) :
  if connects e
  then ∃ w, NewWebSocketManipulatorWithRootCAAndNamespace decodeErrors username password url
              namespace skipTLSVerify e = Returned (Some w, None)
            ∧ mgr w = set_ws (Some dialed)
                        (new_manipulator username password url namespace skipTLSVerify)
            ∧ events w = connect_trace e (ws_url url "/wsapi?token=" password namespace false)
  else ∃ err, NewWebSocketManipulatorWithRootCAAndNamespace decodeErrors username password url
                namespace skipTLSVerify e = Returned (None, Some err).
Proof.
  unfold NewWebSocketManipulatorWithRootCAAndNamespace.
  match goal with
  | |- context [connect decodeErrors e ?w] =>
      destruct (connect_run decodeErrors e w eq_refl) as (result & -> & Hiff & _)
  end.
  destruct (connects e) eqn:Hconn.
  - rewrite (proj2 Hiff eq_refl). eexists. split; [reflexivity |].
    split; [| reflexivity]. cbn [mgr].
    unfold connects in Hconn. apply andb_prop in Hconn as [Hconn _].
    apply andb_prop in Hconn as [Hcfg Hdial].
    unfold connect_mgr. rewrite Hcfg, Hdial. reflexivity.
  - destruct result as [err |].
    + exists err. reflexivity.
    + pose proof (proj1 Hiff eq_refl). discriminate.
Qed.

(** X24.  [NewWebSocketManipulatorWithRootCAAndNamespace] returns either a
    manipulator and no error or no manipulator and an error, and does not
    panic.  It returns a manipulator exactly when the first [connect] goes
    through; the manipulator then carries the credentials, the address, the
    namespace and the TLS setting given, does not receive all events, is
    running and connected, and the only address dialed is the one built from
    the arguments. *)
Theorem constructor_result (username password url namespace : string) (skipTLSVerify : bool)
    (e : connect_in) :
  let r := NewWebSocketManipulatorWithRootCAAndNamespace decodeErrors username password url
             namespace skipTLSVerify e in
  if connects e
  then ∃ w, r = Returned (Some w, None)
            ∧ mgr w = set_ws (Some dialed)
                        (new_manipulator username password url namespace skipTLSVerify)
            ∧ events w = connect_trace e (ws_url url "/wsapi?token=" password namespace false)
  else ∃ err, r = Returned (None, Some err).
Proof. intros r. subst r. apply constructor_run. Qed.

(** X25.  [NewWebSocketManipulatorWithMidgardCertAuthentication] returns the
    error of the identity provider when no token is issued, whatever the
    server would answer.  With a token it connects as user [Bearer] with the
    token as password, and the token is in the address dialed. *)
Theorem midgard_constructor_result (url namespace : string) (skipInsecure : bool)
    (issued : string * option error) (e : connect_in) :
  let r := NewWebSocketManipulatorWithMidgardCertAuthentication decodeErrors url namespace
             skipInsecure issued e in
  match issued.2 with
  | Some err => r = Returned (None, Some err)
  | None =>
      if connects e
      then ∃ w, r = Returned (Some w, None)
                ∧ username (mgr w) = "Bearer"
                ∧ password (mgr w) = issued.1
                ∧ events w
                  = connect_trace e (ws_url url "/wsapi?token=" issued.1 namespace false)
      else ∃ err, r = Returned (None, Some err)
  end.
Proof.
  intros r. subst r. unfold NewWebSocketManipulatorWithMidgardCertAuthentication.
  destruct issued as [token [err |]]; cbn [fst snd]; [reflexivity |].
  pose proof (constructor_run "Bearer" token url namespace skipInsecure e) as Hrun.
  destruct (connects e); [| exact Hrun].
  destruct Hrun as (w & -> & Hmgr & Hevents).
  exists w. split; [reflexivity |]. rewrite Hmgr. auto.
Qed.

(** X26.  The two constructors without a certificate pool never verify the
    server's certificate: the manipulator they return has
    [InsecureSkipVerify] set, whether or not the system pool could be
    loaded. *)
Theorem basic_constructors_skip_verification (username password url namespace : string)
    (pool : option error) (e : connect_in) (w : world) :
  (NewWebSocketManipulatorWithNamespace decodeErrors username password url namespace pool e).2
    = Returned (Some w, None)
  ∨ (NewWebSocketManipulator decodeErrors username password url pool e).2
    = Returned (Some w, None) →
  tlsInsecureSkipVerify (mgr w) = true.
Proof.
  unfold NewWebSocketManipulator, NewWebSocketManipulatorWithNamespace. cbn [snd].
  intros [Hnew | Hnew];
    match type of Hnew with
    | NewWebSocketManipulatorWithRootCAAndNamespace _ ?u ?p ?a ?n ?s ?e = _ =>
        pose proof (constructor_run u p a n s e) as Hrun
    end;
    destruct (connects e);
    [ destruct Hrun as (w' & Heq & Hmgr & _)
    | destruct Hrun as (err & Heq)
    | destruct Hrun as (w' & Heq & Hmgr & _)
    | destruct Hrun as (err & Heq) ];
    rewrite Heq in Hnew; try discriminate;
    injection Hnew as <-; rewrite Hmgr; reflexivity.
Qed.

(** X27.  A reconnection uses the refreshed token: after the refresh loop
    has run, [connect] dials the address that carries the token of the last
    tick before the stop signal, or the password from before when there was
    no tick. *)
Theorem connect_uses_refreshed_token (ins : list renew_in) (e : connect_in) (w : world) :
  idle (mgr w) = true →
  let w1 := (renewMidgardToken ins w).2 in
  since w1 (connect decodeErrors e w1).2
  = connect_trace e
      (ws_url (url (mgr w)) "/wsapi?token="
         (default (password (mgr w)) (last (tokens_before_stop ins)))
         (namespace (mgr w)) (receiveAll (mgr w))).
Proof.
  intros Hidle w1. subst w1.
  destruct (renewMidgardToken_run ins w (idle_renewLock _ Hidle)) as (tr & -> & _).
  cbn [snd].
  match goal with
  | |- context [connect decodeErrors e ?w1] =>
      destruct (connect_run decodeErrors e w1) as (result & -> & _);
        [destruct w as [[] ? ? ?]; exact Hidle |]
  end.
  cbn [snd]. erewrite since_app by reflexivity.
  destruct w as [[] ? ? ?]; reflexivity.
Qed.

End Constructors.


Lemma basic_constructors_skip_verification_witness :
  ∃ w, (NewWebSocketManipulator Sample.decode "Bearer" "T0" "https://api.example.com" None
          Sample.accepted).2 = Returned (Some w, None)
       ∧ tlsInsecureSkipVerify (mgr w) = true.
Proof.
  eexists. split; [vm_compute; reflexivity |].
  apply (basic_constructors_skip_verification Sample.decode "Bearer" "T0"
           "https://api.example.com" "" None Sample.accepted).
  right. vm_compute. reflexivity.
Defined.

Lemma connect_uses_refreshed_token_witness :
  let w1 := (renewMidgardToken [Tick "T1" None; Tick "T2" None; StopSignal] Sample.w0).2 in
  since w1 (connect Sample.decode Sample.accepted w1).2
  = [EvClear;
     EvNewConfig "wss://api.example.com/wsapi?token=T2&namespace=/ns";
     EvDial ApiSocket "wss://api.example.com/wsapi?token=T2&namespace=/ns" true;
     EvWsReceive ApiSocket].
Proof.
  apply (connect_uses_refreshed_token Sample.decode
           [Tick "T1" None; Tick "T2" None; StopSignal] Sample.accepted Sample.w0 eq_refl).
Defined.

(** ** The stop closure of the Midgard constructor *)


